(** * schema-graph: schema graph assembly and rendering

    A shallow embedding of [main.go] of UNO-SOFT/schema-graph: the row
    mergers ([readTables], [readConstraints]), the graph assembler and the
    two sort passes ([getTables]), the grouping key ([grp]), the node
    identifier ([name]) and the three renderers ([PrintDOT], [PrintGML],
    [PrintGraphML]).

    Go strings are byte sequences: they are modelled as [string], whose
    characters are the bytes.  Slices are lists, [map[string][]Constraint]
    is a [gmap string (list Constraint.t)] and [map[string]struct{}] is a
    [gset string]. *)

From Stdlib Require Import Ascii.
From stdpp Require Import gmap strings list.

(** Go's [==] on strings. *)
Notation "a == b" := (String.eqb a b) (at level 70, no associativity).

(** ** Byte strings: the parts of Go's [strings] and [html] packages used *)

Module GoStrings.

(** The bytes that cannot be written inside a literal. *)
Definition dquote : ascii := ascii_of_nat 34.
Definition newline : ascii := ascii_of_nat 10.
Definition tab : ascii := ascii_of_nat 9.

Definition DQ : string := String dquote "".
Definition NL : string := String newline "".
Definition TAB : string := String tab "".

(** [strings.Join(elems, sep)]. *)
Fixpoint Join (elems : list string) (sep : string) : string :=
  match elems with
  | [] => ""
  | [e] => e
  | e :: rest => e +:+ sep +:+ Join rest sep
  end.

(** [strings.IndexByte(s, c)]; [None] stands for [-1]. *)
Fixpoint IndexByte (s : string) (c : ascii) : option nat :=
  match s with
  | "" => None
  | String a rest =>
      if Ascii.eqb a c then Some 0 else S <$> IndexByte rest c
  end.

(** The slices [s[:m]] and [s[m:]] for [m <= len(s)]. *)
Fixpoint slice_to (m : nat) (s : string) : string :=
  match m, s with
  | S m', String a rest => String a (slice_to m' rest)
  | _, _ => ""
  end.

Fixpoint slice_from (m : nat) (s : string) : string :=
  match m, s with
  | S m', String _ rest => slice_from m' rest
  | _, _ => s
  end.

(** The loop of [genSplit] for a one-byte separator: [k] is the number
    of cuts still allowed ([n - 1 - i] in the source). *)
Fixpoint genSplit_loop (k : nat) (s : string) (sep : ascii) : list string :=
  match k with
  | 0 => [s]
  | S k' =>
      match IndexByte s sep with
      | None => [s]
      | Some m => slice_to m s :: genSplit_loop k' (slice_from (m + 1) s) sep
      end
  end.

(** [strings.SplitN(s, sep, n)] for a one-byte separator and [n >= 0]:
    [n = 0] gives no part at all, otherwise at most [n] parts, the last
    one being the unsplit remainder. *)
Definition SplitN (s : string) (sep : ascii) (n : nat) : list string :=
  match n with
  | 0 => []
  | S k => genSplit_loop k s sep
  end.

(** A [strings.Replacer] all of whose old strings are single bytes: every
    byte is looked up on its own, the first pair that names it wins, and
    a byte without a pair is copied. *)
Fixpoint lookup_pair (pairs : list (ascii * string)) (a : ascii) : option string :=
  match pairs with
  | [] => None
  | (o, n) :: rest => if Ascii.eqb a o then Some n else lookup_pair rest a
  end.

Fixpoint Replace (pairs : list (ascii * string)) (s : string) : string :=
  match s with
  | "" => ""
  | String a rest =>
      match lookup_pair pairs a with
      | Some n => n +:+ Replace pairs rest
      | None => String a (Replace pairs rest)
      end
  end.

(** [html.EscapeString]: the replacer of package [html]. *)
Definition htmlEscaper : list (ascii * string) :=
  [ ("&"%char, "&amp;"); ("'"%char, "&#39;"); ("<"%char, "&lt;");
    (">"%char, "&gt;"); (dquote, "&#34;") ].

Definition EscapeString (s : string) : string := Replace htmlEscaper s.

(** [strings.Replace(s, "\n", "<BR/>\n", -1)]. *)
Definition ReplaceNL (s : string) : string :=
  Replace [ (newline, "<BR/>" +:+ NL) ] s.

(** Go's [<] on strings: bytewise lexicographic order. *)
Definition lt (a b : string) : bool := String.ltb a b.

(** Does the byte [c] occur in [s]? *)
Fixpoint ContainsByte (s : string) (c : ascii) : bool :=
  match s with
  | "" => false
  | String a rest => Ascii.eqb a c || ContainsByte rest c
  end.

End GoStrings.

Import GoStrings.

(** ** The data model (the four struct types of [main.go]) *)

Module Column.
Record t := mk {
  Name : string;
  Type_ : string;
  Comment : string;
  Unique : bool
}.
End Column.

Module TableConstraint.
Record t := mk {
  Columns : list string;
  RemoteOwner : string;
  RemoteTable : string;
  RemoteName : string
}.
End TableConstraint.

Module Table.
Record t := mk {
  Owner : string;
  Name : string;
  Comment : string;
  Columns : list Column.t;
  Constraints : list TableConstraint.t
}.
End Table.

(** [Constraint] embeds [TableConstraint]; its promoted fields are read
    through the [TableConstraint] projection. *)
Module Constraint.
Record t := mk {
  Owner : string;
  Name : string;
  Type_ : string;
  Table : string;
  TableConstraint : TableConstraint.t
}.
Definition Columns (c : t) : list string :=
  TableConstraint.Columns (TableConstraint c).
End Constraint.

(** ** Node identifiers and the grouping key *)

Definition Dot : string := "__".

Definition replDot : list (ascii * string) :=
  [ ("."%char, Dot); ("$"%char, "_") ].

Definition name (s : list string) : string := Replace replDot (Join s Dot).

(** The loop of [grp]: [i] is the index of the first element of [parts]. *)
Fixpoint grp_loop (i : nat) (parts : list string) (s : string) : string :=
  match parts with
  | [] => s
  | part :: rest =>
      if (1 <=? i)%nat && (2 <? String.length part)%nat
      then part
      else grp_loop (S i) rest s
  end.

Definition grp (s : string) : string :=
  grp_loop 0 (SplitN s "_"%char 3) s.

(** The same function the way the specification words it: the first part
    at index 1 or more that is longer than 2 bytes, else the argument. *)
Definition grp_spec (s : string) : string :=
  match List.find (fun part => (2 <? String.length part)%nat)
                  (tail (SplitN s "_"%char 3)) with
  | Some part => part
  | None => s
  end.

(** ** The two comparators *)

Module byRankSize.
(** [Less(i, j)] on the elements [a = x[i]] and [b = x[j]]. *)
Definition Less (a b : Table.t) : bool :=
  if (length (Table.Constraints a) <? length (Table.Constraints b))%nat then true
  else if (length (Table.Constraints b) <? length (Table.Constraints a))%nat then false
  else (length (Table.Columns a) <? length (Table.Columns b))%nat.
End byRankSize.

Module byNameGroup.
Definition Less (a b : Table.t) : bool :=
  if lt (Table.Owner a) (Table.Owner b) then true
  else if lt (Table.Owner b) (Table.Owner a) then true
  else if lt (grp (Table.Name a)) (grp (Table.Name b)) then true
  else if lt (grp (Table.Name b)) (grp (Table.Name a)) then false
  else lt (Table.Name a) (Table.Name b).
End byNameGroup.

(** [sort.Reverse]: the comparator with its arguments exchanged. *)
Definition Reverse {A} (less : A → A → bool) : A → A → bool :=
  fun a b => less b a.


(** ** Row mergers *)

(** Go's [error] values are carried as their message. *)
Definition error : Type := string.

(** What one turn of [rows.Next()] and [rows.Scan(...)] delivers: the
    scanned fields of a row, or the error of a failed scan. *)
Inductive scanned (R : Type) : Type :=
| Scanned (r : R)
| ScanError (e : error).
Arguments Scanned {R} r.
Arguments ScanError {R} e.

(** A row of the column query, in the order of its select list. *)
Module ColumnRow.
Record t := mk {
  owner : string;
  table_name : string;
  column_name : string;
  data_type : string;
  tab_comment : string;
  col_comment : string
}.
End ColumnRow.

(** A row of the constraint query, in the order of its select list. *)
Module ConstraintRow.
Record t := mk {
  owner : string;
  constraint_name : string;
  constraint_type : string;
  table_name : string;
  column_name : string;
  r_owner : string;
  r_table_name : string;
  r_pk : string
}.
End ConstraintRow.

(** Maximal runs of consecutive rows with equal keys, as the
    specification describes the grouping: the rows are cut exactly where
    the key changes. *)
Section Runs.
Context {R K : Type} `{EqDecision K} (key : R → K).

Fixpoint runs (rows : list R) : list (list R) :=
  match rows with
  | [] => []
  | r :: rest =>
      match runs rest with
      | (r' :: run) :: others =>
          if decide (key r = key r')
          then (r :: r' :: run) :: others
          else [r] :: (r' :: run) :: others
      | _ => [[r]]
      end
  end.
End Runs.

Section Readers.
(** [strings.TrimSpace] belongs to Go's library; the mergers only pass
    comments through it. *)
Variable TrimSpace : string → string.

(** The zero value of [Table] ([var tp Table]). *)
Definition zeroTable : Table.t := Table.mk "" "" "" [] [].

(** The body of the loop of [readTables] up to the first test: the
    scanned row as the column [c] and the one-column table [ta]. *)
Definition scanColumn (r : ColumnRow.t) : Table.t * Column.t :=
  let c := Column.mk (ColumnRow.column_name r) (ColumnRow.data_type r)
                     (TrimSpace (ColumnRow.col_comment r)) false in
  let ta := Table.mk (ColumnRow.owner r) (ColumnRow.table_name r)
                     (TrimSpace (ColumnRow.tab_comment r)) [c] [] in
  (ta, c).

(** [tp.Columns = append(tp.Columns, c)]. *)
Definition appendColumn (tp : Table.t) (c : Column.t) : Table.t :=
  Table.mk (Table.Owner tp) (Table.Name tp) (Table.Comment tp)
           (Table.Columns tp ++ [c]) (Table.Constraints tp).

(** The loop of [readTables] with its state [(tables, tp)].  A scan error
    leaves the loop with the tables flushed so far. *)
Fixpoint readTables_loop (rows : list (scanned ColumnRow.t))
    (tables : list Table.t) (tp : Table.t)
  : list Table.t * Table.t * option error :=
  match rows with
  | [] => (tables, tp, None)
  | ScanError e :: _ => (tables, tp, Some e)
  | Scanned r :: rest =>
      let '(ta, c) := scanColumn r in
      if Table.Name tp == "" then readTables_loop rest tables ta
      else if negb ((Table.Owner tp == Table.Owner ta)
                    && (Table.Name tp == Table.Name ta))
      then readTables_loop rest (tables ++ [tp]) ta
      else readTables_loop rest tables (appendColumn tp c)
  end.

Definition readTables (rows : list (scanned ColumnRow.t))
  : list Table.t * option error :=
  match readTables_loop rows [] zeroTable with
  | (tables, _, Some e) => (tables, Some e)
  | (tables, tp, None) =>
      if negb (Table.Name tp == "")
      then (tables ++ [tp], None)
      else (tables, None)
  end.

(** The zero value of [Constraint] ([var cp Constraint]). *)
Definition zeroConstraint : Constraint.t :=
  Constraint.mk "" "" "" "" (TableConstraint.mk [] "" "" "").

Definition scanConstraint (r : ConstraintRow.t) : Constraint.t * string :=
  let colName := ConstraintRow.column_name r in
  (Constraint.mk (ConstraintRow.owner r) (ConstraintRow.constraint_name r)
     (ConstraintRow.constraint_type r) (ConstraintRow.table_name r)
     (TableConstraint.mk [colName] (ConstraintRow.r_owner r)
        (ConstraintRow.r_table_name r) (ConstraintRow.r_pk r)),
   colName).

(** [cp.Columns = append(cp.Columns, colName)]. *)
Definition appendColName (cp : Constraint.t) (colName : string) : Constraint.t :=
  let tc := Constraint.TableConstraint cp in
  Constraint.mk (Constraint.Owner cp) (Constraint.Name cp)
    (Constraint.Type_ cp) (Constraint.Table cp)
    (TableConstraint.mk (TableConstraint.Columns tc ++ [colName])
       (TableConstraint.RemoteOwner tc) (TableConstraint.RemoteTable tc)
       (TableConstraint.RemoteName tc)).

(** The test that keeps a row in the current constraint. *)
Definition sameConstraint (ca cp : Constraint.t) : bool :=
  (Constraint.Owner ca == Constraint.Owner cp)
  && (Constraint.Name ca == Constraint.Name cp)
  && (Constraint.Type_ ca == Constraint.Type_ cp)
  && (Constraint.Table ca == Constraint.Table cp)
  && (TableConstraint.RemoteOwner (Constraint.TableConstraint ca)
        == TableConstraint.RemoteOwner (Constraint.TableConstraint cp))
  && (TableConstraint.RemoteTable (Constraint.TableConstraint ca)
        == TableConstraint.RemoteTable (Constraint.TableConstraint cp))
  && (TableConstraint.RemoteName (Constraint.TableConstraint ca)
        == TableConstraint.RemoteName (Constraint.TableConstraint cp)).

(** [k := cp.Owner + "." + cp.Table; constraints[k] = append(constraints[k], cp)]. *)
Definition fileConstraint (constraints : gmap string (list Constraint.t))
    (cp : Constraint.t) : gmap string (list Constraint.t) :=
  let k := Constraint.Owner cp +:+ "." +:+ Constraint.Table cp in
  <[k := default [] (constraints !! k) ++ [cp]]> constraints.

Fixpoint readConstraints_loop (rows : list (scanned ConstraintRow.t))
    (constraints : gmap string (list Constraint.t)) (cp : Constraint.t)
  : gmap string (list Constraint.t) * Constraint.t * option error :=
  match rows with
  | [] => (constraints, cp, None)
  | ScanError e :: _ => (constraints, cp, Some e)
  | Scanned r :: rest =>
      let '(ca, colName) := scanConstraint r in
      if Constraint.Name cp == "" then readConstraints_loop rest constraints ca
      else if negb (sameConstraint ca cp)
      then readConstraints_loop rest (fileConstraint constraints cp) ca
      else readConstraints_loop rest constraints (appendColName cp colName)
  end.

Definition readConstraints (rows : list (scanned ConstraintRow.t))
  : gmap string (list Constraint.t) * option error :=
  match readConstraints_loop rows ∅ zeroConstraint with
  | (constraints, _, Some e) => (constraints, Some e)
  | (constraints, cp, None) =>
      if negb (Constraint.Name cp == "")
      then (fileConstraint constraints cp, None)
      else (constraints, None)
  end.

(** *** The entities the specification expects from a run of rows *)

Definition tableKey (r : ColumnRow.t) : string * string :=
  (ColumnRow.owner r, ColumnRow.table_name r).

Definition columnOfRow (r : ColumnRow.t) : Column.t := snd (scanColumn r).

(** One table per run: the header fields of the first row and one
    column per row, in row order. *)
Definition tableOfRun (run : list ColumnRow.t) : Table.t :=
  match run with
  | [] => zeroTable
  | r :: _ =>
      Table.mk (ColumnRow.owner r) (ColumnRow.table_name r)
               (TrimSpace (ColumnRow.tab_comment r))
               (columnOfRow <$> run) []
  end.

Definition constraintKey (r : ConstraintRow.t)
  : string * string * string * string * string * string * string :=
  (ConstraintRow.owner r, ConstraintRow.constraint_name r,
   ConstraintRow.constraint_type r, ConstraintRow.table_name r,
   ConstraintRow.r_owner r, ConstraintRow.r_table_name r,
   ConstraintRow.r_pk r).

Definition constraintOfRun (run : list ConstraintRow.t) : Constraint.t :=
  match run with
  | [] => zeroConstraint
  | r :: _ =>
      Constraint.mk (ConstraintRow.owner r) (ConstraintRow.constraint_name r)
        (ConstraintRow.constraint_type r) (ConstraintRow.table_name r)
        (TableConstraint.mk (ConstraintRow.column_name <$> run)
           (ConstraintRow.r_owner r) (ConstraintRow.r_table_name r)
           (ConstraintRow.r_pk r))
  end.

(** The map key a constraint is filed under. *)
Definition constraintMapKey (c : Constraint.t) : string :=
  Constraint.Owner c +:+ "." +:+ Constraint.Table c.
End Readers.

(** ** Graph assembly and the two sort passes ([getTables]) *)

(** [t.Columns[i].Unique = ok]. *)
Definition setUnique (ok : bool) (c : Column.t) : Column.t :=
  Column.mk (Column.Name c) (Column.Type_ c) (Column.Comment c) ok.

(** The body of [for _, c := range constraints[...]], on the state
    [(t.Constraints, uCols)]. *)
Definition assembleConstraint
    (st : list TableConstraint.t * gset string) (c : Constraint.t)
  : list TableConstraint.t * gset string :=
  let '(tcs, uCols) := st in
  if Constraint.Type_ c == "R"
  then (tcs ++ [Constraint.TableConstraint c], uCols)
  else if (Constraint.Type_ c == "P") || (Constraint.Type_ c == "U")
  then (tcs, foldl (λ u nm, {[nm]} ∪ u) uCols (Constraint.Columns c))
  else (tcs, uCols).

(** [for i, c := range t.Columns { _, ok := uCols[c.Name]; t.Columns[i].Unique = ok }]:
    [rest] are the elements still to visit, [i] the index of the first of
    them, [cols] the slice being written. *)
Fixpoint setUnique_loop (uCols : gset string) (i : nat)
    (rest cols : list Column.t) : list Column.t :=
  match rest with
  | [] => cols
  | c :: rest' =>
      let ok := bool_decide (Column.Name c ∈ uCols) in
      setUnique_loop uCols (S i) rest' (alter (setUnique ok) i cols)
  end.

(** The body of [for i, t := range tables], giving the new [t]. *)
Definition assembleTable (constraints : gmap string (list Constraint.t))
    (t : Table.t) : Table.t :=
  let k := Table.Owner t +:+ "." +:+ Table.Name t in
  let '(tcs, uCols) :=
    foldl assembleConstraint (Table.Constraints t, ∅) (default [] (constraints !! k)) in
  Table.mk (Table.Owner t) (Table.Name t) (Table.Comment t)
           (setUnique_loop uCols 0 (Table.Columns t) (Table.Columns t)) tcs.

(** [for i, t := range tables { ...; tables[i] = t }]. *)
Fixpoint assemble_loop (constraints : gmap string (list Constraint.t))
    (i : nat) (rest tables : list Table.t) : list Table.t :=
  match rest with
  | [] => tables
  | t :: rest' =>
      assemble_loop constraints (S i) rest'
        (<[i := assembleTable constraints t]> tables)
  end.

(** [insertionSort] of package [sort], which both [sort.Sort] and
    [sort.Stable] run on short slices: each element in turn is swapped
    leftwards while [Less] says it goes before its left neighbour.  The
    sorted prefix is kept reversed, its last element first. *)
Section InsertionSort.
Context {A : Type} (less : A → A → bool).

Fixpoint sink (x : A) (revPrefix : list A) : list A :=
  match revPrefix with
  | [] => [x]
  | p :: ps => if less x p then p :: sink x ps else x :: p :: ps
  end.

Definition insertionSort (l : list A) : list A :=
  rev (foldl (λ revPrefix x, sink x revPrefix) [] l).
End InsertionSort.

Section GetTables.
(** [sort.Sort] and [sort.Stable] of Go's library, as functions of the
    comparator and the slice. *)
Variables sortSort sortStable :
  (Table.t → Table.t → bool) → list Table.t → list Table.t.

(** [getTables] from the point where [constraints] and [tables] have
    been read, from the database or from the snapshot. *)
Definition getTables (constraints : gmap string (list Constraint.t))
    (tables : list Table.t) : list Table.t * option error :=
  let tables := assemble_loop constraints 0 tables tables in
  let tables := sortSort (Reverse byRankSize.Less) tables in
  let tables := sortStable byNameGroup.Less tables in
  (tables, None).
End GetTables.

(** ** Renderers *)

(** A Go run either finishes or panics. *)
Inductive result (A : Type) : Type :=
| Done (a : A)
| Panic (msg : string).
Arguments Done {A} a.
Arguments Panic {A} msg.

(** Code that writes to the [bufio.Writer] [bw]: the state is the text
    written to [bw] so far. *)
Definition W (A : Type) : Type := string → result (A * string).

Global Instance W_mret : MRet W := λ A a buf, Done (a, buf).

Global Instance W_bind : MBind W := λ A B f m buf,
  match m buf with
  | Done (a, buf') => f a buf'
  | Panic msg => Panic msg
  end.

(** [bw.WriteString(s)], and [fmt.Fprintf(bw, ...)] once formatted. *)
Definition WriteString (s : string) : W unit := λ buf, Done (tt, buf +:+ s).

(** The index expression [l[i]], which panics out of range. *)
Definition index (l : list string) (i : nat) : W string :=
  λ buf, match l !! i with
         | Some x => Done (x, buf)
         | None => Panic "index out of range"
         end.

(** [for _, x := range l { body }] with a loop-carried variable. *)
Fixpoint forRange {A S} (l : list A) (body : S → A → W S) (s : S) : W S :=
  match l with
  | [] => mret s
  | x :: rest => s' ← body s x; forRange rest body s'
  end.

(** The destination [w io.Writer]: the text it has accepted, and the
    error it answers every write with when it is out of order. *)
Module ioWriter.
Record t := mk {
  written : string;
  fault : option error
}.
End ioWriter.

(** [bw.Flush()]: hands the buffered text to [w] and returns its error. *)
Definition Flush (w : ioWriter.t) (buf : string) : ioWriter.t * option error :=
  match ioWriter.fault w with
  | Some e => (w, Some e)
  | None => (ioWriter.mk (ioWriter.written w +:+ buf) None, None)
  end.

(** [bw := bufio.NewWriter(w); ...; return bw.Flush()]. *)
Definition withWriter (w : ioWriter.t) (body : W unit)
  : result (ioWriter.t * option error) :=
  match body "" with
  | Done (_, buf) => Done (Flush w buf)
  | Panic msg => Panic msg
  end.

Section Renderers.
(** The verb [%q] ([strconv.Quote]) and [wordwrap.WrapString] are
    library code. *)
Variable Quote : string → string.
Variable WrapString : string → nat → string.

Definition PrintNodeDOT (t : Table.t) : W unit :=
  WriteString
    ("  " +:+ name [Table.Owner t; Table.Name t]
     +:+ " [pencolor=white shape=box label=<<TABLE ALIGN=" +:+ DQ +:+ "LEFT" +:+ DQ
     +:+ "><TR><TD ALIGN=" +:+ DQ +:+ "CENTER" +:+ DQ
     +:+ " COLSPAN=" +:+ DQ +:+ "3" +:+ DQ +:+ "><B>"
     +:+ Table.Owner t +:+ "." +:+ Table.Name t
     +:+ "</B></TD></TR> <TR><TD COLSPAN=" +:+ DQ +:+ "3" +:+ DQ +:+ ">"
     +:+ ReplaceNL (EscapeString (WrapString (Table.Comment t) 40))
     +:+ "</TD></TR>" +:+ NL) ;;
  forRange (Table.Columns t) (λ _ col,
    let attrs :=
      if Column.Unique col
      then " BGCOLOR=" +:+ DQ +:+ "YELLOW" +:+ DQ +:+ " "
      else "" in
    WriteString
      ("<TR><TD PORT=" +:+ Quote (Column.Name col)
       +:+ " ALIGN=" +:+ DQ +:+ "LEFT" +:+ DQ +:+ attrs +:+ ">"
       +:+ Column.Name col
       +:+ "</TD><TD ALIGN=" +:+ DQ +:+ "LEFT" +:+ DQ +:+ ">"
       +:+ EscapeString (Column.Type_ col)
       +:+ "</TD><TD ALIGN=" +:+ DQ +:+ "RIGHT" +:+ DQ +:+ ">"
       +:+ ReplaceNL (EscapeString (WrapString (Column.Comment col) 25))
       +:+ "</TD></TR>" +:+ NL)) tt ;;
  WriteString ("</TABLE>>];" +:+ NL).

Definition PrintNodeGML (t : Table.t) : W unit :=
  WriteString
    (TAB +:+ "node [" +:+ NL +:+ TAB +:+ TAB +:+ "id "
     +:+ name [Table.Owner t; Table.Name t] +:+ NL +:+ TAB +:+ TAB
     +:+ EscapeString (WrapString (Table.Comment t) 40)
     +:+ NL +:+ TAB +:+ "]" +:+ NL).

(** The cluster loop shared, word for word, by [PrintDOT] and
    [PrintGraphML]; the loop-carried variable is [prevGrp]. *)
Definition clusterBody (prevGrp : string) (t : Table.t) : W string :=
  let actGrp := grp (Table.Name t) in
  prevGrp ←
    (if prevGrp == ""
     then WriteString ("subgraph cluster_" +:+ actGrp +:+ " {" +:+ NL) ;;
          mret actGrp
     else if negb (actGrp == prevGrp)
     then WriteString ("}" +:+ NL +:+ "subgraph cluster_" +:+ actGrp
                       +:+ " {" +:+ NL) ;;
          mret actGrp
     else mret prevGrp);
  PrintNodeDOT t ;;
  mret prevGrp.

(** The text of one edge in the box-diagram syntax. *)
Definition edgeDOT (t : Table.t) (c : TableConstraint.t) (col : string) : string :=
  "  " +:+ name [Table.Owner t; Table.Name t] +:+ ":" +:+ col
  +:+ " -> "
  +:+ name [TableConstraint.RemoteOwner c; TableConstraint.RemoteTable c]
  +:+ ":" +:+ col
  +:+ " [label=" +:+ Quote (TableConstraint.RemoteName c) +:+ "];" +:+ NL.

(** The text of one edge in the generic-graph syntax. *)
Definition edgeGML (t : Table.t) (c : TableConstraint.t) (col : string) : string :=
  TAB +:+ "edge [" +:+ NL +:+ TAB +:+ TAB +:+ "source "
  +:+ name [Table.Owner t; Table.Name t] +:+ ":" +:+ col
  +:+ NL +:+ TAB +:+ TAB +:+ "target "
  +:+ name [TableConstraint.RemoteOwner c; TableConstraint.RemoteTable c]
  +:+ ":" +:+ col
  +:+ NL +:+ TAB +:+ TAB +:+ "label " +:+ Quote (TableConstraint.RemoteName c)
  +:+ NL +:+ TAB +:+ "]" +:+ NL.

(** The body of [for _, c := range t.Constraints], the same in the
    three renderers but for the text of the edge. *)
Definition edgeBody (edge : Table.t → TableConstraint.t → string → string)
    (t : Table.t) (c : TableConstraint.t) : W unit :=
  col ←
    (if negb (length (TableConstraint.Columns c) =? 0)%nat
     then index (TableConstraint.Columns c) 0
     else mret "");
  if TableConstraint.RemoteTable c == ""
  then mret tt
  else WriteString (edge t c col).

Definition edgeLoop (edge : Table.t → TableConstraint.t → string → string)
    (tables : list Table.t) : W unit :=
  forRange tables (λ _ t,
    forRange (Table.Constraints t) (λ _ c, edgeBody edge t c) tt) tt.

Definition PrintDOT (w : ioWriter.t) (tables : list Table.t)
  : result (ioWriter.t * option error) :=
  withWriter w
    (WriteString ("digraph {" +:+ NL) ;;
     prevGrp ← forRange tables clusterBody "";
     (if negb (prevGrp == "") then WriteString ("}" +:+ NL) else mret tt) ;;
     edgeLoop edgeDOT tables ;;
     WriteString (NL +:+ "}" +:+ NL)).

Definition PrintGML (w : ioWriter.t) (tables : list Table.t)
  : result (ioWriter.t * option error) :=
  withWriter w
    (WriteString ("graph [" +:+ NL) ;;
     forRange tables (λ _ t, PrintNodeGML t) tt ;;
     edgeLoop edgeGML tables ;;
     WriteString ("]" +:+ NL)).

Definition PrintGraphML (w : ioWriter.t) (tables : list Table.t)
  : result (ioWriter.t * option error) :=
  withWriter w
    (WriteString ("digraph {" +:+ NL) ;;
     prevGrp ← forRange tables clusterBody "";
     (if negb (prevGrp == "") then WriteString ("}" +:+ NL) else mret tt) ;;
     edgeLoop edgeDOT tables ;;
     WriteString (NL +:+ "}" +:+ NL)).
End Renderers.

(** ** What the specification says the renderers write *)

(** Concatenation of a list of texts. *)
Definition joinAll (l : list string) : string := foldr String.append "" l.

(** The text a writer produces when started on an empty buffer. *)
Definition textOf {A} (m : W A) : string :=
  match m "" with
  | Done (_, buf) => buf
  | Panic _ => ""
  end.

(** The edges to draw: every constraint with a remote table, with the
    table that owns it, in table order and then constraint order. *)
Definition edgesOf (tables : list Table.t) : list (Table.t * TableConstraint.t) :=
  t ← tables;
  c ← filter (λ c, TableConstraint.RemoteTable c ≠ "") (Table.Constraints t);
  [(t, c)].

(** The first local column, the port of an edge. *)
Definition firstColumn (c : TableConstraint.t) : string :=
  default "" (head (TableConstraint.Columns c)).

Definition edgesText (edge : Table.t → TableConstraint.t → string → string)
    (tables : list Table.t) : string :=
  joinAll ((λ tc, edge tc.1 tc.2 (firstColumn tc.2)) <$> edgesOf tables).

Section Documents.
Variable Quote : string → string.
Variable WrapString : string → nat → string.

(** The cluster blocks with their nodes, closing brace included. *)
Definition clustersText (tables : list Table.t) : string :=
  textOf (prevGrp ← forRange tables (clusterBody Quote WrapString) "";
          if negb (prevGrp == "") then WriteString ("}" +:+ NL) else mret tt).

Definition nodesTextGML (tables : list Table.t) : string :=
  textOf (forRange tables (λ _ t, PrintNodeGML WrapString t) tt).

Definition documentDOT (tables : list Table.t) : string :=
  "digraph {" +:+ NL +:+ clustersText tables
  +:+ edgesText (edgeDOT Quote) tables +:+ NL +:+ "}" +:+ NL.

Definition documentGML (tables : list Table.t) : string :=
  "graph [" +:+ NL +:+ nodesTextGML tables
  +:+ edgesText (edgeGML Quote) tables +:+ "]" +:+ NL.
End Documents.

(** Delimiters are balanced: no closing one without an opening one
    before it, and none left open at the end. *)
Fixpoint balanced_from (depth : nat) (opening closing : ascii) (s : string) : bool :=
  match s with
  | "" => (depth =? 0)%nat
  | String a rest =>
      if Ascii.eqb a opening then balanced_from (S depth) opening closing rest
      else if Ascii.eqb a closing then
        match depth with
        | 0 => false
        | S d => balanced_from d opening closing rest
        end
      else balanced_from depth opening closing rest
  end.

Definition balanced (opening closing : ascii) (s : string) : bool :=
  balanced_from 0 opening closing s.

(** An XML document begins, after optional white space, with the [<] of
    its prolog or of its root element. *)
Fixpoint startsLikeXML (s : string) : bool :=
  match s with
  | "" => false
  | String a rest =>
      if Ascii.eqb a " " || Ascii.eqb a tab || Ascii.eqb a newline
         || Ascii.eqb a (ascii_of_nat 13)
      then startsLikeXML rest
      else Ascii.eqb a "<"
  end.

(** Does [sub] occur in [s]? *)
Fixpoint Contains (s sub : string) : bool :=
  String.prefix sub s ||
  match s with
  | "" => false
  | String _ rest => Contains rest sub
  end.

(** ** Library functions on simple arguments, for the examples *)

Module Sample.
(** [strconv.Quote] on printable ASCII text: the text between double
    quotes, with a backslash before each double quote and backslash. *)
Definition backslash : ascii := ascii_of_nat 92.

Definition Quote (s : string) : string :=
  DQ +:+ Replace [ (dquote, String backslash DQ);
                   (backslash, String backslash (String backslash "")) ] s
     +:+ DQ.

(** [wordwrap.WrapString] on a text without white space: no word is
    split, so the text comes back unchanged. *)
Definition WrapString (s : string) (lim : nat) : string := s.

Definition isSpace (a : ascii) : bool :=
  Ascii.eqb a " " || ((9 <=? nat_of_ascii a) && (nat_of_ascii a <=? 13))%nat.

Fixpoint trimLeft (s : string) : string :=
  match s with
  | "" => ""
  | String a rest => if isSpace a then trimLeft rest else s
  end.

Fixpoint trimRight (s : string) : string :=
  match s with
  | "" => ""
  | String a rest =>
      match trimRight rest with
      | "" => if isSpace a then "" else String a ""
      | r => String a r
      end
  end.

(** [strings.TrimSpace] on ASCII text. *)
Definition TrimSpace (s : string) : string := trimRight (trimLeft s).

Definition sortSort (less : Table.t → Table.t → bool) (l : list Table.t) :=
  insertionSort less l.
Definition sortStable (less : Table.t → Table.t → bool) (l : list Table.t) :=
  insertionSort less l.

Definition healthy : ioWriter.t := ioWriter.mk "" None.
End Sample.

(** ** Inputs and predicates of the statements below *)

(** The owners and names on which [name] changes no byte and finds its
    separator again: no [.], [$] or [_] in an owner, no [.] or [$] in a
    table name. *)
Definition plainOwner (o : string) : Prop :=
  ContainsByte o "." = false ∧ ContainsByte o "$" = false
  ∧ ContainsByte o "_" = false.

Definition plainName (n : string) : Prop :=
  ContainsByte n "." = false ∧ ContainsByte n "$" = false.

(** Two tables that differ in their owner only. *)
Definition tableAT : Table.t := Table.mk "A" "T" "" [] [].
Definition tableBT : Table.t := Table.mk "B" "T" "" [] [].


(** [groups] cuts [rows] into its maximal runs of equal keys: put end to
    end the groups give the rows, inside a group all keys agree, and where
    one group ends and the next begins the key changes. *)
Definition maximalRuns {R K : Type} (key : R → K) (rows : list R)
    (groups : list (list R)) : Prop :=
  concat groups = rows
  ∧ Forall (λ run, run ≠ [] ∧ ∀ r r', r ∈ run → r' ∈ run → key r = key r') groups
  ∧ ∀ i run run' r r',
      groups !! i = Some run → groups !! S i = Some run' →
      last run = Some r → head run' = Some r' → key r ≠ key r'.

(** Two rows of a table without a name, and two rows of a constraint
    without a name. *)
Definition namelessRows : list ColumnRow.t :=
  [ ColumnRow.mk "O" "" "C1" "DATE" "" "";
    ColumnRow.mk "O" "" "C2" "DATE" "" "" ].

Definition namelessConstraintRows : list ConstraintRow.t :=
  [ ConstraintRow.mk "O" "" "P" "T" "C1" "" "" "";
    ConstraintRow.mk "O" "" "P" "T" "C2" "" "" "" ].

(** [m] never panics: whatever the buffer holds, it returns [a] and has
    appended [out] to the buffer. *)
Definition writes {A} (m : W A) (a : A) (out : string) : Prop :=
  ∀ buf, m buf = Done (a, buf +:+ out).

(** The minimal documents. *)
Definition emptyDOT : string := "digraph {" +:+ NL +:+ NL +:+ "}" +:+ NL.
Definition emptyGML : string := "graph [" +:+ NL +:+ "]" +:+ NL.

(** A table with a foreign key whose constraint name holds [&] and [<],
    and a foreign key without local columns. *)
Definition tableAmp : Table.t :=
  Table.mk "SCOTT" "EMP_DEPT" "a<b"
    [ Column.mk "ID" "NUMBER" "key" true ]
    [ TableConstraint.mk ["ID"] "SCOTT" "DEPT" "F&K<1" ].

Definition constraintNoColumns : TableConstraint.t :=
  TableConstraint.mk [] "SCOTT" "DEPT" "FK_DEPT".

Definition tableNoColumns : Table.t :=
  Table.mk "SCOTT" "EMP" "" [] [ constraintNoColumns ].

(** A table whose only constraint has no remote table. *)
Definition tableNoEdge : Table.t :=
  Table.mk "SCOTT" "DEPT" "" [ Column.mk "ID" "NUMBER" "" true ]
    [ TableConstraint.mk ["ID"] "" "" "" ].

(** One table with a primary key on one of its two columns. *)
Definition tableEmp : Table.t :=
  Table.mk "SCOTT" "EMP" ""
    [ Column.mk "ID" "NUMBER" "" false; Column.mk "ENAME" "VARCHAR2(10)" "" true ] [].

Definition constraintsEmp : gmap string (list Constraint.t) :=
  {[ "SCOTT.EMP" := [ Constraint.mk "SCOTT" "PK_EMP" "P" "EMP"
                        (TableConstraint.mk ["ID"] "" "" "") ] ]}.

(** ** The owner filter of [main] *)

Definition replOwner : list (ascii * string) :=
  [ ("'"%char, "''"); (newline, " ") ].

Section OwnerFilter.
(** [strings.ToUpper] is library code. *)
Variable ToUpper : string → string.

(** [for i, owner := range owners] on the buffer [buf]. *)
Fixpoint ownerFilter_loop (i : nat) (owners : list string) (buf : string) : string :=
  match owners with
  | [] => buf
  | owner :: rest =>
      let buf := if negb (i =? 0)%nat then buf +:+ "," else buf in
      let buf := buf +:+ "'" in
      let buf := buf +:+ ToUpper (Replace replOwner owner) in
      let buf := buf +:+ "'" in
      ownerFilter_loop (S i) rest buf
  end.

(** The value of [ownerW] that [main] hands to [getTables]. *)
Definition ownerFilter (owners : list string) : string :=
  if negb (length owners =? 0)%nat
  then ownerFilter_loop 0 owners "AND A.owner IN (" +:+ ")"
  else "".

(** One owner between quotes, as the loop writes it. *)
Definition quotedOwner (owner : string) : string :=
  "'" +:+ ToUpper (Replace replOwner owner) +:+ "'".
End OwnerFilter.

(** How SQL reads the body of a string literal: two quotes stand for one
    quote, a quote alone closes the literal.  The result is the text read
    and, when the literal is closed, what follows the closing quote. *)
Fixpoint scanSQLLiteral (s : string) : string * option string :=
  match s with
  | "" => ("", None)
  | String a rest =>
      if Ascii.eqb a "'" then
        match rest with
        | String b rest' =>
            if Ascii.eqb b "'"
            then let (v, r) := scanSQLLiteral rest' in (String "'" v, r)
            else ("", Some rest)
        | "" => ("", Some "")
        end
      else let (v, r) := scanSQLLiteral rest in (String a v, r)
  end.

(** ** The node printer that no renderer calls *)

Section UnusedPrinter.
Variable Quote : string → string.
Variable WrapString : string → nat → string.

Definition PrintNodeGraphML (t : Table.t) : W unit :=
  WriteString
    ("  " +:+ name [Table.Owner t; Table.Name t]
     +:+ " [pencolor=white shape=box label=<<TABLE ALIGN=" +:+ DQ +:+ "LEFT" +:+ DQ
     +:+ "><TR><TD ALIGN=" +:+ DQ +:+ "CENTER" +:+ DQ
     +:+ " COLSPAN=" +:+ DQ +:+ "3" +:+ DQ +:+ "><B>"
     +:+ Table.Owner t +:+ "." +:+ Table.Name t
     +:+ "</B></TD></TR> <TR><TD COLSPAN=" +:+ DQ +:+ "3" +:+ DQ +:+ ">"
     +:+ ReplaceNL (EscapeString (WrapString (Table.Comment t) 40))
     +:+ "</TD></TR>" +:+ NL) ;;
  forRange (Table.Columns t) (λ _ col,
    let attrs :=
      if Column.Unique col
      then " BGCOLOR=" +:+ DQ +:+ "YELLOW" +:+ DQ +:+ " "
      else "" in
    WriteString
      ("<TR><TD PORT=" +:+ Quote (Column.Name col)
       +:+ " ALIGN=" +:+ DQ +:+ "LEFT" +:+ DQ +:+ attrs +:+ ">"
       +:+ Column.Name col
       +:+ "</TD><TD ALIGN=" +:+ DQ +:+ "LEFT" +:+ DQ +:+ ">"
       +:+ EscapeString (Column.Type_ col)
       +:+ "</TD><TD ALIGN=" +:+ DQ +:+ "RIGHT" +:+ DQ +:+ ">"
       +:+ ReplaceNL (EscapeString (WrapString (Column.Comment col) 25))
       +:+ "</TD></TR>" +:+ NL)) tt ;;
  WriteString ("</TABLE>>];" +:+ NL).
End UnusedPrinter.

(** ** Further inputs and predicates of the statements below *)

(** Equal keys stand together: a row whose key comes again later is
    directly followed by a row of that key.  A stream sorted by its key
    is grouped. *)
Fixpoint groupedb {R K : Type} `{EqDecision K} (key : R → K) (rows : list R) : bool :=
  match rows with
  | [] => true
  | r :: rest =>
      match rest with
      | [] => true
      | r1 :: _ =>
          (bool_decide (key r1 = key r)
           || forallb (λ r', negb (bool_decide (key r' = key r))) rest)
          && groupedb key rest
      end
  end.

(** The identity of a table. *)
Definition tableIdentity (t : Table.t) : string * string :=
  (Table.Owner t, Table.Name t).

(** The group a table is drawn in. *)
Definition tableGroup (t : Table.t) : string := grp (Table.Name t).

Section Blocks.
Variable Quote : string → string.
Variable WrapString : string → nat → string.

(** The text of one node of the box diagram. *)
Definition nodeTextDOT (t : Table.t) : string :=
  textOf (PrintNodeDOT Quote WrapString t).

(** One cluster block: its opening line, the nodes of its tables and
    its closing line. *)
Definition clusterBlock (run : list Table.t) : string :=
  "subgraph cluster_" +:+ default "" (tableGroup <$> head run) +:+ " {" +:+ NL
  +:+ joinAll (nodeTextDOT <$> run) +:+ "}" +:+ NL.
End Blocks.

(** Lexicographic comparison of the rank weight. *)
Definition rankWeight (t : Table.t) : nat * nat :=
  (length (Table.Constraints t), length (Table.Columns t)).

(** Three column rows of two tables, the second of them unreadable. *)
Definition rowsThenError : list (scanned ColumnRow.t) :=
  [ Scanned (ColumnRow.mk "O" "T" "A" "DATE" "" "");
    Scanned (ColumnRow.mk "O" "U" "A" "DATE" "" "");
    ScanError "bad row";
    Scanned (ColumnRow.mk "O" "V" "A" "DATE" "" "") ].

Definition groupedRows : list ColumnRow.t :=
  [ ColumnRow.mk "O" "T" "A" "DATE" "" "";
    ColumnRow.mk "O" "T" "B" "DATE" "" "";
    ColumnRow.mk "O" "U" "A" "DATE" "" "" ].

(** A table that refers to itself. *)
Definition tableSelf : Table.t :=
  Table.mk "SCOTT" "EMP" "" [ Column.mk "MGR" "NUMBER" "" false ]
    [ TableConstraint.mk ["MGR"] "SCOTT" "EMP" "FK_MGR" ].

(** What every table that leaves [readTables] looks like. *)
Definition mergedTable (t : Table.t) : Prop :=
  Table.Name t ≠ "" ∧ Table.Columns t ≠ [] ∧ Table.Constraints t = []
  ∧ Forall (λ c, Column.Unique c = false) (Table.Columns t).

(** What every entry of the map that leaves [readConstraints] looks like. *)
Definition mergedConstraints (k : string) (cs : list Constraint.t) : Prop :=
  cs ≠ []
  ∧ Forall (λ c, constraintMapKey c = k ∧ Constraint.Name c ≠ ""
                 ∧ Constraint.Columns c ≠ []) cs.

Definition constraintRowsThenError : list (scanned ConstraintRow.t) :=
  [ Scanned (ConstraintRow.mk "O" "PK_T" "P" "T" "A" "" "" "");
    Scanned (ConstraintRow.mk "O" "PK_U" "P" "U" "A" "" "" "");
    ScanError "bad row" ].

(** The lines that open and close a cluster. *)
Definition openCluster (g : string) : string :=
  "subgraph cluster_" +:+ g +:+ " {" +:+ NL.

Definition closeCluster : string := "}" +:+ NL.

(** The identity of a constraint: the fields [readConstraints] compares. *)
Definition constraintIdentity (c : Constraint.t)
  : string * string * string * string * string * string * string :=
  (Constraint.Owner c, Constraint.Name c, Constraint.Type_ c, Constraint.Table c,
   TableConstraint.RemoteOwner (Constraint.TableConstraint c),
   TableConstraint.RemoteTable (Constraint.TableConstraint c),
   TableConstraint.RemoteName (Constraint.TableConstraint c)).

Section NodeTexts.
Variable Quote : string → string.
Variable WrapString : string → nat → string.

(** The first lines of a node of the box diagram: its identifier, the
    title row and the comment row. *)
Definition nodeHeadDOT (t : Table.t) : string :=
  "  " +:+ name [Table.Owner t; Table.Name t]
  +:+ " [pencolor=white shape=box label=<<TABLE ALIGN=" +:+ DQ +:+ "LEFT" +:+ DQ
  +:+ "><TR><TD ALIGN=" +:+ DQ +:+ "CENTER" +:+ DQ
  +:+ " COLSPAN=" +:+ DQ +:+ "3" +:+ DQ +:+ "><B>"
  +:+ Table.Owner t +:+ "." +:+ Table.Name t
  +:+ "</B></TD></TR> <TR><TD COLSPAN=" +:+ DQ +:+ "3" +:+ DQ +:+ ">"
  +:+ ReplaceNL (EscapeString (WrapString (Table.Comment t) 40))
  +:+ "</TD></TR>" +:+ NL.

(** The row of one column; [highlight] stands between the alignment
    and the end of the first cell's tag. *)
Definition columnRowDOT (highlight : string) (col : Column.t) : string :=
  "<TR><TD PORT=" +:+ Quote (Column.Name col)
  +:+ " ALIGN=" +:+ DQ +:+ "LEFT" +:+ DQ +:+ highlight +:+ ">"
  +:+ Column.Name col
  +:+ "</TD><TD ALIGN=" +:+ DQ +:+ "LEFT" +:+ DQ +:+ ">"
  +:+ EscapeString (Column.Type_ col)
  +:+ "</TD><TD ALIGN=" +:+ DQ +:+ "RIGHT" +:+ DQ +:+ ">"
  +:+ ReplaceNL (EscapeString (WrapString (Column.Comment col) 25))
  +:+ "</TD></TR>" +:+ NL.

(** The record of one node of the generic graph. *)
Definition nodeTextGML (t : Table.t) : string :=
  TAB +:+ "node [" +:+ NL +:+ TAB +:+ TAB +:+ "id "
  +:+ name [Table.Owner t; Table.Name t] +:+ NL +:+ TAB +:+ TAB
  +:+ EscapeString (WrapString (Table.Comment t) 40)
  +:+ NL +:+ TAB +:+ "]" +:+ NL.
End NodeTexts.

(** Constraint rows: a primary key of two columns and a foreign key. *)
Definition constraintRowsEmp : list ConstraintRow.t :=
  [ ConstraintRow.mk "SCOTT" "FK_DEPT" "R" "EMP" "DEPTNO" "SCOTT" "DEPT" "PK_DEPT";
    ConstraintRow.mk "SCOTT" "PK_EMP" "P" "EMP" "ID" "" "" "";
    ConstraintRow.mk "SCOTT" "PK_EMP" "P" "EMP" "ENAME" "" "" "" ].

(** * Properties *)

(** ** Byte strings *)

#[local] Arguments String.append !_ _ / : simpl nomatch.

Lemma append_assoc (a b c : string) : (a +:+ b) +:+ c = a +:+ (b +:+ c).
Proof. induction a as [|x a IH]; simpl; [done | by rewrite IH]. Qed.

Lemma append_nil_r (a : string) : a +:+ "" = a.
Proof. induction a as [|x a IH]; simpl; [done | by rewrite IH]. Qed.

Lemma ascii_eqb_true (a b : ascii) : Ascii.eqb a b = true ↔ a = b.
Proof. apply Ascii.eqb_eq. Qed.

Lemma ascii_eqb_false (a b : ascii) : Ascii.eqb a b = false ↔ a ≠ b.
Proof. apply Ascii.eqb_neq. Qed.

Lemma string_eqb_true (a b : string) : (a == b) = true ↔ a = b.
Proof. apply String.eqb_eq. Qed.

Lemma string_eqb_false (a b : string) : (a == b) = false ↔ a ≠ b.
Proof. apply String.eqb_neq. Qed.

Lemma IndexByte_cut (s : string) (c : ascii) (m : nat) :
  IndexByte s c = Some m →
  s = slice_to m s +:+ String c (slice_from (m + 1) s).
Proof.
  revert m. induction s as [|a s IH]; intros m; simpl; [done|].
  destruct (Ascii.eqb a c) eqn:Hac.
  - intros [= <-]. apply ascii_eqb_true in Hac as ->. done.
  - destruct (IndexByte s c) as [m'|]; simpl; [|done].
    intros [= <-]. simpl. f_equal. by apply IH.
Qed.

Lemma genSplit_loop_length (k : nat) (s : string) (sep : ascii) :
  length (genSplit_loop k s sep) ≤ S k.
Proof.
  revert s. induction k as [|k IH]; intros s; simpl; [lia|].
  destruct (IndexByte s sep); simpl; [|lia].
  specialize (IH (slice_from (n + 1) s)). lia.
Qed.

Lemma genSplit_loop_nonempty (k : nat) (s : string) (sep : ascii) :
  genSplit_loop k s sep ≠ [].
Proof. destruct k; simpl; [done|]. by destruct (IndexByte s sep). Qed.

(** Joining the parts with the separator gives the text back: nothing is
    lost or reordered by the split. *)
Lemma Join_genSplit_loop (k : nat) (s : string) (sep : ascii) :
  Join (genSplit_loop k s sep) (String sep "") = s.
Proof.
  revert s. induction k as [|k IH]; intros s; simpl; [done|].
  destruct (IndexByte s sep) as [m|] eqn:Hm; [|done].
  specialize (IH (slice_from (m + 1) s)).
  destruct (genSplit_loop k (slice_from (m + 1) s) sep) as [|p ps] eqn:Hparts.
  { by apply genSplit_loop_nonempty in Hparts. }
  change (Join (slice_to m s :: p :: ps) (String sep ""))
    with (slice_to m s +:+ String sep "" +:+ Join (p :: ps) (String sep "")).
  rewrite IH. simpl. symmetry. by apply IndexByte_cut.
Qed.

Lemma SplitN_length (s : string) (sep : ascii) (n : nat) :
  length (SplitN s sep n) ≤ n.
Proof. destruct n; simpl; [lia | apply genSplit_loop_length]. Qed.

Lemma Join_SplitN (s : string) (sep : ascii) (n : nat) :
  0 < n → Join (SplitN s sep n) (String sep "") = s.
Proof. destruct n; [lia|]. intros _. apply Join_genSplit_loop. Qed.

Lemma Replace_append (pairs : list (ascii * string)) (a b : string) :
  Replace pairs (a +:+ b) = Replace pairs a +:+ Replace pairs b.
Proof.
  induction a as [|x a IH]; simpl; [done|].
  destruct (lookup_pair pairs x); rewrite IH; [by rewrite append_assoc | done].
Qed.

Lemma ContainsByte_append (a b : string) (c : ascii) :
  ContainsByte (a +:+ b) c = ContainsByte a c || ContainsByte b c.
Proof.
  induction a as [|x a IH]; simpl; [done|].
  rewrite IH. by rewrite orb_assoc.
Qed.

(** ** The grouping key *)

Lemma grp_loop_find (i : nat) (parts : list string) (s : string) :
  grp_loop (S i) parts s =
  match List.find (λ part, (2 <? String.length part)%nat) parts with
  | Some part => part
  | None => s
  end.
Proof.
  revert i. induction parts as [|p parts IH]; intros i; simpl; [done|].
  destruct (2 <? String.length p)%nat; [done | apply IH].
Qed.

Lemma grp_unfold (s : string) : grp s = grp_spec s.
Proof.
  unfold grp, grp_spec.
  destruct (SplitN s "_" 3) as [|p parts]; simpl; [done|].
  apply grp_loop_find.
Qed.

(** C8: [grp] cuts its argument at ["_"] into at most 3 parts (which put
    together again give the argument), and returns the first part at
    index 1 or more that is longer than 2 bytes, or the argument itself
    when there is none; so [grp "ORDER_ITEM_DETAIL" = "ITEM"],
    [grp "X" = "X"] and [grp "AB_C" = "AB_C"]. *)
Theorem grp_first_long_part (s : string) :
  length (SplitN s "_" 3) ≤ 3
  ∧ Join (SplitN s "_" 3) "_" = s
  ∧ grp s = match List.find (λ part, (2 <? String.length part)%nat)
                            (tail (SplitN s "_" 3)) with
            | Some part => part
            | None => s
            end
  ∧ grp "ORDER_ITEM_DETAIL" = "ITEM"
  ∧ grp "X" = "X"
  ∧ grp "AB_C" = "AB_C".
Proof.
  split; [apply SplitN_length|].
  split; [apply (Join_SplitN s "_" 3); lia|].
  split; [apply grp_unfold|].
  by vm_compute.
Qed.

(** ** Node identifiers *)

Lemma Replace_replDot_plain (s : string) :
  ContainsByte s "." = false → ContainsByte s "$" = false →
  Replace replDot s = s.
Proof.
  induction s as [|a s IH]; simpl; [done|].
  intros [Ha1 Hs1]%orb_false_iff [Ha2 Hs2]%orb_false_iff.
  rewrite Ha1, Ha2. by rewrite IH.
Qed.

Lemma name_plain (o n : string) :
  ContainsByte o "." = false → ContainsByte o "$" = false →
  ContainsByte n "." = false → ContainsByte n "$" = false →
  name [o; n] = o +:+ Dot +:+ n.
Proof.
  intros Ho1 Ho2 Hn1 Hn2. unfold name.
  change (Join [o; n] Dot) with (o +:+ Dot +:+ n).
  rewrite !Replace_append.
  rewrite (Replace_replDot_plain o), (Replace_replDot_plain n) by done.
  done.
Qed.

(** Where the first underscore stands decides the owner. *)
Lemma separator_cut (o1 o2 n1 n2 : string) :
  ContainsByte o1 "_" = false → ContainsByte o2 "_" = false →
  o1 +:+ Dot +:+ n1 = o2 +:+ Dot +:+ n2 →
  o1 = o2 ∧ n1 = n2.
Proof.
  revert o2. induction o1 as [|a o1 IH]; intros [|b o2]; simpl.
  - intros _ _ [= ->]. done.
  - intros _ [Hb _]%orb_false_iff [= <- _]. done.
  - intros [Ha _]%orb_false_iff _ [= -> _]. done.
  - intros [_ H1]%orb_false_iff [_ H2]%orb_false_iff [= -> Heq].
    destruct (IH o2 H1 H2 Heq) as [-> ->]. done.
Qed.

(** C4, as the code has it: on owners without [.], [$] and [_] and
    table names without [.] and [$], two pairs with the same node
    identifier are the same pair. *)
Theorem name_injective_on_plain (o1 n1 o2 n2 : string) :
  plainOwner o1 → plainOwner o2 → plainName n1 → plainName n2 →
  name [o1; n1] = name [o2; n2] →
  o1 = o2 ∧ n1 = n2.
Proof.
  intros (Ho1 & Ho1' & Hu1) (Ho2 & Ho2' & Hu2) [Hn1 Hn1'] [Hn2 Hn2'].
  rewrite !name_plain by done.
  by apply separator_cut.
Qed.

Lemma name_injective_on_plain_witness :
  name ["SCOTT"; "EMP_DEPT"] = "SCOTT__EMP_DEPT"
  ∧ ("SCOTT" = "SCOTT" ∧ "EMP_DEPT" = "EMP_DEPT").
Proof.
  split; [reflexivity|].
  apply (name_injective_on_plain "SCOTT" "EMP_DEPT" "SCOTT" "EMP_DEPT");
    repeat split; reflexivity.
Defined.

(** C4 as stated fails: a name that contains the separator and an owner
    that contains it give the same identifier, and so do [.] against the
    separator and [$] against [_]. *)
Lemma name_not_injective :
  ("A", "B__C") ≠ ("A__B", "C")
  ∧ name ["A"; "B__C"] = name ["A__B"; "C"]
  ∧ ("A", "B.C") ≠ ("A", "B__C")
  ∧ name ["A"; "B.C"] = name ["A"; "B__C"]
  ∧ ("A", "B$") ≠ ("A", "B_")
  ∧ name ["A"; "B$"] = name ["A"; "B_"].
Proof. repeat split; (discriminate || reflexivity). Qed.

(** ** The comparator of the second sort pass *)

(** C3 fails on the code: for two tables of different owners the
    comparator says "less" in both directions, so it is not asymmetric
    and no strict order; the stable sort then exchanges the two tables
    whichever comes first. *)
Theorem byNameGroup_Less_both_ways :
  byNameGroup.Less tableAT tableBT = true
  ∧ byNameGroup.Less tableBT tableAT = true
  ∧ insertionSort byNameGroup.Less [tableAT; tableBT] = [tableBT; tableAT]
  ∧ insertionSort byNameGroup.Less [tableBT; tableAT] = [tableAT; tableBT].
Proof. repeat split; reflexivity. Qed.

(** ** Runs of equal keys *)

Section RunsFacts.
Context {R K : Type} `{EqDecision K} (key : R → K).

Lemma runs_head (r : R) (rest : list R) :
  ∃ run others, runs key (r :: rest) = (r :: run) :: others.
Proof.
  simpl. destruct (runs key rest) as [|[|r' run] others]; eauto.
  destruct (decide (key r = key r')); eauto.
Qed.

Lemma runs_concat (rows : list R) : concat (runs key rows) = rows.
Proof.
  induction rows as [|r rows IH]; simpl; [done|].
  destruct (runs key rows) as [|[|r' run] others] eqn:Hruns.
  - simpl in IH. by subst.
  - destruct rows as [|r0 rows]; [done|].
    destruct (runs_head r0 rows) as (? & ? & Hh). congruence.
  - destruct (decide (key r = key r')); simpl in *; by rewrite IH.
Qed.

Lemma runs_groups (rows : list R) :
  Forall (λ run, run ≠ [] ∧ ∀ r r', r ∈ run → r' ∈ run → key r = key r')
         (runs key rows).
Proof.
  induction rows as [|r rows IH]; simpl; [constructor|].
  destruct (runs key rows) as [|[|r' run] others] eqn:Hruns.
  - constructor; [|constructor]. split; [done|].
    by intros a b ->%list_elem_of_singleton ->%list_elem_of_singleton.
  - constructor; [|constructor]. split; [done|].
    by intros a b ->%list_elem_of_singleton ->%list_elem_of_singleton.
  - apply Forall_cons in IH as [[_ Hsame] IH].
    destruct (decide (key r = key r')) as [Heq|Hne].
    + constructor; [|done]. split; [done|].
      assert (∀ a, a ∈ r :: r' :: run → key a = key r') as Hall.
      { intros a [->|Ha]%elem_of_cons; [done|]. apply Hsame; [done|]. left. }
      intros a b Ha Hb. by rewrite (Hall a), (Hall b).
    + constructor; [|by constructor].
      split; [done|].
      by intros a b ->%list_elem_of_singleton ->%list_elem_of_singleton.
Qed.

Lemma runs_boundaries (rows : list R) (i : nat) (run run' : list R) (r r' : R) :
  runs key rows !! i = Some run → runs key rows !! S i = Some run' →
  last run = Some r → head run' = Some r' → key r ≠ key r'.
Proof.
  revert i run run' r r'.
  induction rows as [|r0 rows IH]; intros i run run' r r'; simpl; [done|].
  destruct (runs key rows) as [|[|r1 run1] others] eqn:Hruns; [done| |].
  { destruct rows as [|r2 rows]; [done|].
    destruct (runs_head r2 rows) as (? & ? & Hh). congruence. }
  assert (∀ a, a ∈ r1 :: run1 → key a = key r1) as Hsame.
  { pose proof (runs_groups rows) as Hg. rewrite Hruns in Hg.
    apply Forall_cons in Hg as [[_ Hs] _].
    intros a Ha. apply Hs; [done | left]. }
  destruct (decide (key r0 = key r1)) as [Heq|Hne].
  - destruct i as [|i]; simpl.
    + intros [= <-] Hrun' Hlast Hhead.
      apply (IH 0 (r1 :: run1) run' r r'); try done.
    + intros Hi HSi. by apply (IH (S i)).
  - destruct i as [|i]; simpl.
    + intros [= <-] [= <-]. simpl. by intros [= <-] [= <-].
    + intros Hi HSi. by apply (IH i).
Qed.

Lemma runs_maximalRuns (rows : list R) : maximalRuns key rows (runs key rows).
Proof.
  split; [apply runs_concat|]. split; [apply runs_groups|].
  intros i run run' r r'. apply runs_boundaries.
Qed.

(** A group of one key is its own only run. *)
Lemma runs_one_key (k : K) (cur : list R) :
  cur ≠ [] → (∀ r, r ∈ cur → key r = k) → runs key cur = [cur].
Proof.
  induction cur as [|c cur IH]; [done|]. intros _ Hk.
  destruct cur as [|c' cur]; [done|].
  change (runs key (c :: c' :: cur))
    with (match runs key (c' :: cur) with
          | (r' :: run) :: others =>
              if decide (key c = key r')
              then (c :: r' :: run) :: others
              else [c] :: (r' :: run) :: others
          | _ => [[c]]
          end).
  rewrite IH; [|done|intros r Hr; apply Hk; by right].
  rewrite decide_True; [done|].
  rewrite (Hk c), (Hk c'); [done| right; left | left].
Qed.

(** A group of one key followed by a row of another key is closed
    there. *)
Lemma runs_key_change (k : K) (cur : list R) (r : R) (rest : list R) :
  cur ≠ [] → (∀ c, c ∈ cur → key c = k) → key r ≠ k →
  runs key (cur ++ r :: rest) = cur :: runs key (r :: rest).
Proof.
  induction cur as [|c cur IH]; [done|]. intros _ Hk Hr.
  destruct cur as [|c' cur].
  - destruct (runs_head r rest) as (run & others & Hh).
    change (runs key ([c] ++ r :: rest))
      with (match runs key (r :: rest) with
            | (r' :: run) :: others =>
                if decide (key c = key r')
                then (c :: r' :: run) :: others
                else [c] :: (r' :: run) :: others
            | _ => [[c]]
            end).
    rewrite Hh. rewrite decide_False; [done|].
    rewrite (Hk c); [congruence | left].
  - change (runs key ((c :: c' :: cur) ++ r :: rest))
      with (match runs key ((c' :: cur) ++ r :: rest) with
            | (r' :: run) :: others =>
                if decide (key c = key r')
                then (c :: r' :: run) :: others
                else [c] :: (r' :: run) :: others
            | _ => [[c]]
            end).
    rewrite IH; [|done|intros x Hx; apply Hk; by right|done].
    rewrite decide_True; [done|].
    rewrite (Hk c), (Hk c'); [done| right; left | left].
Qed.
End RunsFacts.

(** ** The row mergers *)

Section ReadersFacts.
Variable TrimSpace : string → string.

Lemma tableOfRun_append (cur : list ColumnRow.t) (r : ColumnRow.t) :
  cur ≠ [] →
  appendColumn (tableOfRun TrimSpace cur) (columnOfRow TrimSpace r)
  = tableOfRun TrimSpace (cur ++ [r]).
Proof.
  destruct cur as [|c cur]; [done|]. intros _.
  unfold appendColumn. simpl. by rewrite fmap_app.
Qed.

(** The loop of [readTables], entered with the run [cur] in [tp]. *)
Lemma readTables_loop_runs (rows : list ColumnRow.t) :
  Forall (λ r, ColumnRow.table_name r ≠ "") rows →
  ∀ (tables : list Table.t) (c0 : ColumnRow.t) (cur : list ColumnRow.t),
    ColumnRow.table_name c0 ≠ "" →
    (∀ c, c ∈ c0 :: cur → tableKey c = tableKey c0) →
    ∃ tables' tp',
      readTables_loop TrimSpace (Scanned <$> rows) tables
                      (tableOfRun TrimSpace (c0 :: cur))
      = (tables', tp', None)
      ∧ Table.Name tp' ≠ ""
      ∧ tables' ++ [tp']
        = tables ++ (tableOfRun TrimSpace <$> runs tableKey ((c0 :: cur) ++ rows)).
Proof.
  induction rows as [|r rows IH]; intros Hrows tables c0 cur Hc0 Hkey.
  - eexists _, _. split; [done|]. split; [done|].
    rewrite app_nil_r. by rewrite (runs_one_key tableKey (tableKey c0)).
  - apply Forall_cons in Hrows as [Hr Hrows].
    rewrite fmap_cons.
    cbn [readTables_loop scanColumn tableOfRun Table.Name Table.Owner].
    apply string_eqb_false in Hc0 as Hc0'. rewrite Hc0'.
    destruct ((ColumnRow.owner c0 == ColumnRow.owner r)
              && (ColumnRow.table_name c0 == ColumnRow.table_name r)) eqn:Hsame.
    + apply andb_true_iff in Hsame as [Ho%string_eqb_true Hn%string_eqb_true].
      cbn [negb].
      pose proof (tableOfRun_append (c0 :: cur) r) as Happ.
      cbn [tableOfRun columnOfRow scanColumn snd] in Happ.
      rewrite Happ by done. clear Happ.
      destruct (IH Hrows tables c0 (cur ++ [r]) Hc0) as (tables' & tp' & Hloop & Hname & Hout).
      { intros c [->|[Hc| ->%list_elem_of_singleton]%elem_of_app]%elem_of_cons.
        - done.
        - apply Hkey. by right.
        - unfold tableKey. by rewrite Ho, Hn. }
      exists tables', tp'. split; [exact Hloop|]. split; [done|].
      rewrite Hout.
      by replace ((c0 :: cur ++ [r]) ++ rows) with ((c0 :: cur) ++ r :: rows)
        by (simpl; by rewrite <- app_assoc).
    + cbn [negb].
      assert (tableKey r ≠ tableKey c0) as Hne.
      { unfold tableKey. intros [= Ho Hn].
        rewrite Ho, Hn, !String.eqb_refl in Hsame. done. }
      destruct (IH Hrows (tables ++ [tableOfRun TrimSpace (c0 :: cur)]) r [] Hr)
        as (tables' & tp' & Hloop & Hname & Hout).
      { by intros c ->%list_elem_of_singleton. }
      exists tables', tp'. split; [exact Hloop|]. split; [done|].
      rewrite Hout.
      rewrite (runs_key_change tableKey (tableKey c0)) by done.
      rewrite fmap_cons. by rewrite <- app_assoc.
Qed.

Lemma readTables_runs (rows : list ColumnRow.t) :
  Forall (λ r, ColumnRow.table_name r ≠ "") rows →
  readTables TrimSpace (Scanned <$> rows)
  = (tableOfRun TrimSpace <$> runs tableKey rows, None).
Proof.
  destruct rows as [|r rows]; [done|].
  intros [Hr Hrows]%Forall_cons. unfold readTables.
  rewrite fmap_cons.
  cbn [readTables_loop scanColumn zeroTable Table.Name String.eqb].
  destruct (readTables_loop_runs rows Hrows [] r [] Hr)
    as (tables' & tp' & Hloop & Hname & Hout).
  { by intros c ->%list_elem_of_singleton. }
  cbn [tableOfRun fmap list_fmap columnOfRow scanColumn snd] in Hloop.
  rewrite Hloop.
  apply string_eqb_false in Hname. rewrite Hname. cbn [negb].
  by rewrite Hout.
Qed.
End ReadersFacts.

Lemma constraintOfRun_append (cur : list ConstraintRow.t) (r : ConstraintRow.t) :
  cur ≠ [] →
  appendColName (constraintOfRun cur) (ConstraintRow.column_name r)
  = constraintOfRun (cur ++ [r]).
Proof.
  destruct cur as [|c cur]; [done|]. intros _.
  unfold appendColName. simpl. by rewrite fmap_app.
Qed.

Lemma sameConstraint_key (r c0 : ConstraintRow.t) (cur cur' : list ConstraintRow.t) :
  sameConstraint (constraintOfRun (r :: cur')) (constraintOfRun (c0 :: cur))
  = bool_decide (constraintKey r = constraintKey c0).
Proof.
  unfold sameConstraint, constraintKey. simpl.
  case_bool_decide as Hk.
  - injection Hk as -> -> -> -> -> -> ->. by rewrite !String.eqb_refl.
  - apply not_true_is_false. intros Hall.
    repeat (apply andb_true_iff in Hall as [Hall ?%string_eqb_true]).
    apply string_eqb_true in Hall. apply Hk. congruence.
Qed.

(** The loop of [readConstraints], entered with the run [cur] in [cp]. *)
Lemma readConstraints_loop_runs (rows : list ConstraintRow.t) :
  Forall (λ r, ConstraintRow.constraint_name r ≠ "") rows →
  ∀ (m : gmap string (list Constraint.t)) (c0 : ConstraintRow.t)
    (cur : list ConstraintRow.t),
    ConstraintRow.constraint_name c0 ≠ "" →
    (∀ c, c ∈ c0 :: cur → constraintKey c = constraintKey c0) →
    ∃ m' cp',
      readConstraints_loop (Scanned <$> rows) m (constraintOfRun (c0 :: cur))
      = (m', cp', None)
      ∧ Constraint.Name cp' ≠ ""
      ∧ fileConstraint m' cp'
        = foldl fileConstraint m
            (constraintOfRun <$> runs constraintKey ((c0 :: cur) ++ rows)).
Proof.
  induction rows as [|r rows IH]; intros Hrows m c0 cur Hc0 Hkey.
  - eexists _, _. split; [done|]. split; [done|].
    rewrite app_nil_r. by rewrite (runs_one_key constraintKey (constraintKey c0)).
  - apply Forall_cons in Hrows as [Hr Hrows].
    rewrite fmap_cons.
    change (readConstraints_loop (Scanned r :: (Scanned <$> rows)) m
              (constraintOfRun (c0 :: cur)))
      with (if Constraint.Name (constraintOfRun (c0 :: cur)) == ""
            then readConstraints_loop (Scanned <$> rows) m (constraintOfRun [r])
            else if negb (sameConstraint (constraintOfRun [r])
                                          (constraintOfRun (c0 :: cur)))
            then readConstraints_loop (Scanned <$> rows)
                   (fileConstraint m (constraintOfRun (c0 :: cur)))
                   (constraintOfRun [r])
            else readConstraints_loop (Scanned <$> rows) m
                   (appendColName (constraintOfRun (c0 :: cur))
                                  (ConstraintRow.column_name r))).
    replace (Constraint.Name (constraintOfRun (c0 :: cur)) == "") with false
      by (symmetry; by apply string_eqb_false).
    rewrite sameConstraint_key.
    case_bool_decide as Hk; cbn [negb].
    + rewrite constraintOfRun_append by done.
      destruct (IH Hrows m c0 (cur ++ [r]) Hc0) as (m' & cp' & Hloop & Hname & Hout).
      { intros c [->|[Hc| ->%list_elem_of_singleton]%elem_of_app]%elem_of_cons;
          [done | apply Hkey; by right | done]. }
      exists m', cp'. split; [exact Hloop|]. split; [done|].
      rewrite Hout.
      by replace ((c0 :: cur ++ [r]) ++ rows) with ((c0 :: cur) ++ r :: rows)
        by (simpl; by rewrite <- app_assoc).
    + destruct (IH Hrows (fileConstraint m (constraintOfRun (c0 :: cur))) r [] Hr)
        as (m' & cp' & Hloop & Hname & Hout).
      { by intros c ->%list_elem_of_singleton. }
      exists m', cp'. split; [exact Hloop|]. split; [done|].
      rewrite Hout.
      by rewrite (runs_key_change constraintKey (constraintKey c0)).
Qed.

Lemma readConstraints_runs (rows : list ConstraintRow.t) :
  Forall (λ r, ConstraintRow.constraint_name r ≠ "") rows →
  readConstraints (Scanned <$> rows)
  = (foldl fileConstraint ∅ (constraintOfRun <$> runs constraintKey rows), None).
Proof.
  destruct rows as [|r rows]; [done|].
  intros [Hr Hrows]%Forall_cons. unfold readConstraints.
  rewrite fmap_cons.
  change (readConstraints_loop (Scanned r :: (Scanned <$> rows)) ∅ zeroConstraint)
    with (readConstraints_loop (Scanned <$> rows) ∅ (constraintOfRun [r])).
  destruct (readConstraints_loop_runs rows Hrows ∅ r [] Hr)
    as (m' & cp' & Hloop & Hname & Hout).
  { by intros c ->%list_elem_of_singleton. }
  rewrite Hloop.
  apply string_eqb_false in Hname. rewrite Hname. cbn [negb].
  by rewrite Hout.
Qed.

(** What filing a list of constraints leaves under each key. *)
Lemma fileConstraint_lookup (cs : list Constraint.t)
    (m : gmap string (list Constraint.t)) (k : string) :
  default [] (foldl fileConstraint m cs !! k)
  = default [] (m !! k) ++ filter (λ c, constraintMapKey c = k) cs.
Proof.
  revert m. induction cs as [|c cs IH]; intros m; simpl.
  - by rewrite app_nil_r.
  - rewrite IH. unfold fileConstraint at 1.
    fold (constraintMapKey c).
    rewrite filter_cons.
    destruct (decide (constraintMapKey c = k)) as [->|Hne].
    + rewrite lookup_insert_eq. simpl. by rewrite <- app_assoc.
    + by rewrite lookup_insert_ne.
Qed.

(** C2, as the code has it: when no row has an empty table name (resp.
    constraint name) the mergers give exactly one entity per maximal run
    of rows with equal keys, holding one child per row of the run in row
    order; the tables come in stream order, and the constraints are filed
    under their [owner.table] key, in stream order under each key. *)
Theorem merger_one_entity_per_run (TrimSpace : string → string)
    (rows : list ColumnRow.t) (crows : list ConstraintRow.t) :
  Forall (λ r, ColumnRow.table_name r ≠ "") rows →
  Forall (λ r, ConstraintRow.constraint_name r ≠ "") crows →
  maximalRuns tableKey rows (runs tableKey rows)
  ∧ readTables TrimSpace (Scanned <$> rows)
    = (tableOfRun TrimSpace <$> runs tableKey rows, None)
  ∧ (∀ run, run ≠ [] →
       Table.Columns (tableOfRun TrimSpace run) = columnOfRow TrimSpace <$> run)
  ∧ maximalRuns constraintKey crows (runs constraintKey crows)
  ∧ (∃ m, readConstraints (Scanned <$> crows) = (m, None)
          ∧ ∀ k, default [] (m !! k)
                 = filter (λ c, constraintMapKey c = k)
                          (constraintOfRun <$> runs constraintKey crows))
  ∧ (∀ run, Constraint.Columns (constraintOfRun run)
            = ConstraintRow.column_name <$> run).
Proof.
  intros Hrows Hcrows.
  split; [apply runs_maximalRuns|].
  split; [by apply readTables_runs|].
  split; [by intros [|r run]|].
  split; [apply runs_maximalRuns|].
  split; [|by intros [|r run]].
  eexists. split; [by apply readConstraints_runs|].
  intros k. by rewrite fileConstraint_lookup, lookup_empty.
Qed.

Lemma merger_one_entity_per_run_witness :
  readTables Sample.TrimSpace
    (Scanned <$> [ ColumnRow.mk "O" "T" "A" "DATE" " t " "";
                   ColumnRow.mk "O" "T" "B" "DATE" " t " " b";
                   ColumnRow.mk "O" "U" "A" "DATE" "" "" ])
  = ([ Table.mk "O" "T" "t"
         [Column.mk "A" "DATE" "" false; Column.mk "B" "DATE" "b" false] [];
       Table.mk "O" "U" "" [Column.mk "A" "DATE" "" false] [] ], None).
Proof.
  destruct (merger_one_entity_per_run Sample.TrimSpace
              [ ColumnRow.mk "O" "T" "A" "DATE" " t " "";
                ColumnRow.mk "O" "T" "B" "DATE" " t " " b";
                ColumnRow.mk "O" "U" "A" "DATE" "" "" ]
              [ ConstraintRow.mk "O" "PK" "P" "T" "A" "" "" "" ])
    as (_ & Htables & _).
  - repeat constructor; discriminate.
  - repeat constructor; discriminate.
  - rewrite Htables. reflexivity.
Defined.

(** C2 as stated fails: rows whose table name (resp. constraint name) is
    empty form a run, but no entity comes out of it. *)
Lemma merger_drops_nameless_run :
  runs tableKey namelessRows = [namelessRows]
  ∧ readTables Sample.TrimSpace (Scanned <$> namelessRows) = ([], None)
  ∧ runs constraintKey namelessConstraintRows = [namelessConstraintRows]
  ∧ readConstraints (Scanned <$> namelessConstraintRows) = (∅, None).
Proof. repeat split; reflexivity. Qed.

(** ** Graph assembly *)

Lemma uCols_fold (cols : list string) (u : gset string) (nm : string) :
  nm ∈ foldl (λ u nm, {[nm]} ∪ u) u cols ↔ nm ∈ u ∨ nm ∈ cols.
Proof.
  revert u. induction cols as [|c cols IH]; intros u; simpl.
  - rewrite elem_of_nil. tauto.
  - rewrite IH, elem_of_cons, elem_of_union, elem_of_singleton. tauto.
Qed.

(** The constraints that mark columns: those of type [P] or [U]. *)
Lemma assembleConstraint_fold (cs : list Constraint.t)
    (tcs : list TableConstraint.t) (u : gset string) :
  ∃ u',
    foldl assembleConstraint (tcs, u) cs
    = (tcs ++ (Constraint.TableConstraint
                 <$> filter (λ c, Constraint.Type_ c = "R") cs), u')
    ∧ ∀ nm, nm ∈ u' ↔
        nm ∈ u ∨ ∃ k, k ∈ cs
                      ∧ (Constraint.Type_ k = "P" ∨ Constraint.Type_ k = "U")
                      ∧ nm ∈ Constraint.Columns k.
Proof.
  revert tcs u. induction cs as [|c cs IH]; intros tcs u.
  - exists u. split; [simpl; by rewrite app_nil_r|].
    intros nm. split; [by left|]. intros [?|(k & []%elem_of_nil & _)]. done.
  - cbn [foldl assembleConstraint]. rewrite filter_cons.
    destruct (Constraint.Type_ c == "R") eqn:HR.
    + apply string_eqb_true in HR.
      destruct (IH (tcs ++ [Constraint.TableConstraint c]) u) as (u' & -> & Hu').
      exists u'. rewrite decide_True by done. split.
      { rewrite fmap_cons. by rewrite <- app_assoc. }
      intros nm. rewrite Hu'. split; intros [?|(k & Hk & Hty & Hnm)]; auto.
      * right. exists k. split; [by right | done].
      * apply elem_of_cons in Hk as [->|Hk]; [|right; eauto].
        rewrite HR in Hty. by destruct Hty.
    + apply string_eqb_false in HR. rewrite decide_False by done.
      destruct ((Constraint.Type_ c == "P") || (Constraint.Type_ c == "U")) eqn:HPU.
      * destruct (IH tcs (foldl (λ u nm, {[nm]} ∪ u) u (Constraint.Columns c)))
          as (u' & -> & Hu').
        exists u'. split; [done|].
        intros nm. rewrite Hu', uCols_fold.
        apply orb_true_iff in HPU.
        assert (Constraint.Type_ c = "P" ∨ Constraint.Type_ c = "U") as Hty.
        { destruct HPU as [H%string_eqb_true|H%string_eqb_true]; auto. }
        split.
        -- intros [[?|?]|(k & Hk & ? & ?)]; auto.
           ++ right. exists c. split; [left | done].
           ++ right. exists k. split; [by right | done].
        -- intros [?|(k & Hk & ? & ?)]; auto.
           apply elem_of_cons in Hk as [->|Hk]; [auto | right; eauto].
      * destruct (IH tcs u) as (u' & -> & Hu').
        exists u'. split; [done|].
        intros nm. rewrite Hu'.
        apply orb_false_iff in HPU as [HP%string_eqb_false HU%string_eqb_false].
        split; intros [?|(k & Hk & Hty & Hnm)]; auto.
        -- right. exists k. split; [by right | done].
        -- apply elem_of_cons in Hk as [->|Hk]; [|right; eauto].
           by destruct Hty.
Qed.

Lemma setUnique_loop_app (uCols : gset string) (rest done_ : list Column.t) :
  setUnique_loop uCols (length done_) rest (done_ ++ rest)
  = done_ ++ ((λ c, setUnique (bool_decide (Column.Name c ∈ uCols)) c) <$> rest).
Proof.
  revert done_. induction rest as [|c rest IH]; intros done_; simpl; [done|].
  rewrite alter_app_r_alt by lia. rewrite Nat.sub_diag. simpl.
  replace (done_ ++ setUnique (bool_decide (Column.Name c ∈ uCols)) c :: rest)
    with ((done_ ++ [setUnique (bool_decide (Column.Name c ∈ uCols)) c]) ++ rest)
    by (by rewrite <- app_assoc).
  replace (S (length done_))
    with (length (done_ ++ [setUnique (bool_decide (Column.Name c ∈ uCols)) c]))
    by (rewrite length_app; simpl; lia).
  rewrite IH. by rewrite <- app_assoc.
Qed.

Lemma setUnique_loop_fmap (uCols : gset string) (cols : list Column.t) :
  setUnique_loop uCols 0 cols cols
  = (λ c, setUnique (bool_decide (Column.Name c ∈ uCols)) c) <$> cols.
Proof. apply (setUnique_loop_app uCols cols []). Qed.

Lemma assemble_loop_app (constraints : gmap string (list Constraint.t))
    (rest done_ : list Table.t) :
  assemble_loop constraints (length done_) rest (done_ ++ rest)
  = done_ ++ (assembleTable constraints <$> rest).
Proof.
  revert done_. induction rest as [|t rest IH]; intros done_; simpl; [done|].
  rewrite insert_app_r_alt by lia. rewrite Nat.sub_diag. simpl.
  replace (done_ ++ assembleTable constraints t :: rest)
    with ((done_ ++ [assembleTable constraints t]) ++ rest)
    by (by rewrite <- app_assoc).
  replace (S (length done_))
    with (length (done_ ++ [assembleTable constraints t]))
    by (rewrite length_app; simpl; lia).
  rewrite IH. by rewrite <- app_assoc.
Qed.

Lemma assemble_loop_fmap (constraints : gmap string (list Constraint.t))
    (tables : list Table.t) :
  assemble_loop constraints 0 tables tables = assembleTable constraints <$> tables.
Proof. apply (assemble_loop_app constraints tables []). Qed.

(** One assembled table: header and key unchanged, the foreign keys
    appended in order, every column flagged by the [P]/[U] constraints
    filed under the table's key. *)
Lemma assembleTable_spec (constraints : gmap string (list Constraint.t)) (t : Table.t) :
  let cs := default [] (constraints !! (Table.Owner t +:+ "." +:+ Table.Name t)) in
  Table.Owner (assembleTable constraints t) = Table.Owner t
  ∧ Table.Name (assembleTable constraints t) = Table.Name t
  ∧ Table.Constraints (assembleTable constraints t)
    = Table.Constraints t
      ++ (Constraint.TableConstraint <$> filter (λ c, Constraint.Type_ c = "R") cs)
  ∧ ∀ c, c ∈ Table.Columns (assembleTable constraints t) →
      (Column.Unique c = true ↔
       ∃ k, k ∈ cs ∧ (Constraint.Type_ k = "P" ∨ Constraint.Type_ k = "U")
            ∧ Column.Name c ∈ Constraint.Columns k).
Proof.
  intros cs. unfold assembleTable. fold cs.
  destruct (assembleConstraint_fold cs (Table.Constraints t) ∅) as (u' & -> & Hu').
  cbn [Table.Owner Table.Name Table.Constraints Table.Columns].
  split; [done|]. split; [done|]. split; [done|].
  intros c Hc. rewrite setUnique_loop_fmap in Hc.
  apply list_elem_of_fmap in Hc as (c0 & -> & _). simpl.
  rewrite bool_decide_eq_true, Hu'. split.
  - by intros [[]%elem_of_empty|Hk].
  - intros Hk. by right.
Qed.

(** C1: in the list [getTables] returns (whatever order the two sorts
    leave, as long as they only reorder) the tables are the assembled
    ones, and a column's [Unique] flag is true exactly when its name is in
    the column list of a constraint of type [P] or [U] filed under the
    table's key [owner.name]. *)
Theorem unique_flag_iff_key_constraint
    (sortSort sortStable : (Table.t → Table.t → bool) → list Table.t → list Table.t)
    (constraints : gmap string (list Constraint.t)) (tables : list Table.t) :
  (∀ less l, sortSort less l ≡ₚ l) →
  (∀ less l, sortStable less l ≡ₚ l) →
  (getTables sortSort sortStable constraints tables).1
    ≡ₚ assembleTable constraints <$> tables
  ∧ (getTables sortSort sortStable constraints tables).2 = None
  ∧ ∀ T c,
      T ∈ (getTables sortSort sortStable constraints tables).1 →
      c ∈ Table.Columns T →
      (Column.Unique c = true ↔
       ∃ k, k ∈ default [] (constraints !! (Table.Owner T +:+ "." +:+ Table.Name T))
            ∧ (Constraint.Type_ k = "P" ∨ Constraint.Type_ k = "U")
            ∧ Column.Name c ∈ Constraint.Columns k).
Proof.
  intros Hsort Hstable.
  assert ((getTables sortSort sortStable constraints tables).1
          ≡ₚ assembleTable constraints <$> tables) as Hperm.
  { unfold getTables. simpl. rewrite Hstable, Hsort. by rewrite assemble_loop_fmap. }
  split; [done|]. split; [done|].
  intros T c HT Hc. rewrite Hperm in HT.
  apply list_elem_of_fmap in HT as (t & -> & _).
  destruct (assembleTable_spec constraints t) as (Ho & Hn & _ & Hflag).
  rewrite Ho, Hn. by apply Hflag.
Qed.

(** Under a key of the map [readConstraints] returns are the merged
    constraints whose own [owner.table] is that key, and only those. *)
Lemma readConstraints_files_by_key (rows : list ConstraintRow.t)
    (k : string) (c : Constraint.t) :
  Forall (λ r, ConstraintRow.constraint_name r ≠ "") rows →
  c ∈ default [] ((readConstraints (Scanned <$> rows)).1 !! k)
  ↔ c ∈ (constraintOfRun <$> runs constraintKey rows) ∧ constraintMapKey c = k.
Proof.
  intros Hrows. rewrite readConstraints_runs by done. simpl.
  rewrite fileConstraint_lookup, lookup_empty. simpl.
  rewrite list_elem_of_filter. tauto.
Qed.

Lemma sink_Permutation {A} (less : A → A → bool) (x : A) (l : list A) :
  sink less x l ≡ₚ x :: l.
Proof.
  induction l as [|p l IH]; simpl; [done|].
  destruct (less x p); [|done].
  rewrite IH. apply perm_swap.
Qed.

Lemma insertionSort_Permutation {A} (less : A → A → bool) (l : list A) :
  insertionSort less l ≡ₚ l.
Proof.
  unfold insertionSort.
  assert (∀ acc, foldl (λ revPrefix x, sink less x revPrefix) acc l ≡ₚ l ++ acc) as H.
  { induction l as [|x l IH]; intros acc; simpl; [done|].
    rewrite IH, sink_Permutation. by rewrite Permutation_middle. }
  rewrite <- Permutation_rev, H. by rewrite app_nil_r.
Qed.

Lemma unique_flag_iff_key_constraint_witness :
  (getTables Sample.sortSort Sample.sortStable constraintsEmp [tableEmp]).1
  ≡ₚ [ Table.mk "SCOTT" "EMP" ""
         [ Column.mk "ID" "NUMBER" "" true;
           Column.mk "ENAME" "VARCHAR2(10)" "" false ] [] ].
Proof.
  apply (unique_flag_iff_key_constraint Sample.sortSort Sample.sortStable
           constraintsEmp [tableEmp]);
    intros less l; apply insertionSort_Permutation.
Defined.

(** ** Renderers *)

Lemma writes_ret {A} (a : A) : writes (mret a) a "".
Proof. intros buf. unfold mret, W_mret. by rewrite append_nil_r. Qed.

Lemma writes_bind {A B} (m : W A) (f : A → W B) a b o1 o2 :
  writes m a o1 → writes (f a) b o2 → writes (m ≫= f) b (o1 +:+ o2).
Proof.
  intros Hm Hf buf. unfold mbind, W_bind. rewrite Hm, Hf.
  by rewrite append_assoc.
Qed.

Lemma writes_WriteString (s : string) : writes (WriteString s) tt s.
Proof. by intros buf. Qed.

Lemma writes_textOf {A} (m : W A) a o : writes m a o → textOf m = o.
Proof. intros Hm. unfold textOf. by rewrite Hm. Qed.

Lemma writes_eq {A} (m : W A) a o o' : writes m a o → o = o' → writes m a o'.
Proof. by intros Hm <-. Qed.

(** A loop whose body only writes only writes. *)
Lemma writes_forRange_state {A S} (l : list A) (body : S → A → W S) :
  (∀ s x, ∃ s' o, writes (body s x) s' o) →
  ∀ s, ∃ s' o, writes (forRange l body s) s' o.
Proof.
  intros Hbody. induction l as [|x l IH]; intros s; simpl.
  - eexists _, _. apply writes_ret.
  - destruct (Hbody s x) as (s1 & o1 & H1).
    destruct (IH s1) as (s2 & o2 & H2).
    eexists _, _. by eapply writes_bind.
Qed.

Lemma joinAll_app (l1 l2 : list string) :
  joinAll (l1 ++ l2) = joinAll l1 +:+ joinAll l2.
Proof.
  induction l1 as [|x l1 IH]; simpl; [done|].
  rewrite IH. by rewrite append_assoc.
Qed.

Lemma writes_forRange {A} (l : list A) (f : A → W unit) (out : A → string) :
  (∀ x, writes (f x) tt (out x)) →
  writes (forRange l (λ _ x, f x) tt) tt (joinAll (out <$> l)).
Proof.
  intros Hf. induction l as [|x l IH]; simpl.
  - apply writes_ret.
  - eapply writes_bind; [apply Hf | apply IH].
Qed.

Section RenderersFacts.
Variable Quote : string → string.
Variable WrapString : string → nat → string.

Lemma PrintNodeDOT_writes (t : Table.t) :
  ∃ o, writes (PrintNodeDOT Quote WrapString t) tt o.
Proof.
  unfold PrintNodeDOT.
  match goal with
  | |- context [forRange ?l ?body tt] =>
      destruct (writes_forRange_state l body) with (s := tt) as ([] & o & Hcols)
  end.
  { intros [] col. eexists tt, _. apply writes_WriteString. }
  eexists. eapply writes_bind; [apply writes_WriteString|].
  eapply writes_bind; [apply Hcols | apply writes_WriteString].
Qed.

Lemma PrintNodeGML_writes (t : Table.t) :
  ∃ o, writes (PrintNodeGML WrapString t) tt o.
Proof. eexists. apply writes_WriteString. Qed.

Lemma clusterBody_writes (prevGrp : string) (t : Table.t) :
  ∃ s' o, writes (clusterBody Quote WrapString prevGrp t) s' o.
Proof.
  unfold clusterBody.
  destruct (PrintNodeDOT_writes t) as (o & Hnode).
  destruct (prevGrp == ""); [|destruct (negb _)].
  - eexists _, _. eapply writes_bind.
    { eapply writes_bind; [apply writes_WriteString | apply writes_ret]. }
    eapply writes_bind; [apply Hnode | apply writes_ret].
  - eexists _, _. eapply writes_bind.
    { eapply writes_bind; [apply writes_WriteString | apply writes_ret]. }
    eapply writes_bind; [apply Hnode | apply writes_ret].
  - eexists _, _. eapply writes_bind; [apply writes_ret|].
    eapply writes_bind; [apply Hnode | apply writes_ret].
Qed.

Lemma clusters_parts (tables : list Table.t) :
  ∃ g o o',
    writes (forRange tables (clusterBody Quote WrapString) "") g o
    ∧ writes (if negb (g == "") then WriteString ("}" +:+ NL) else mret tt) tt o'
    ∧ clustersText Quote WrapString tables = o +:+ o'.
Proof.
  destruct (writes_forRange_state tables (clusterBody Quote WrapString)
              clusterBody_writes "") as (g & o & Hloop).
  assert (∃ o', writes (if negb (g == "") then WriteString ("}" +:+ NL) else mret tt)
                       tt o') as (o' & Hclose).
  { destruct (negb _); eexists; [apply writes_WriteString | apply writes_ret]. }
  exists g, o, o'. split; [done|]. split; [done|].
  apply (writes_textOf _ tt).
  apply (writes_bind (forRange tables (clusterBody Quote WrapString) "")
           (λ prevGrp, if negb (prevGrp == "")
                       then WriteString ("}" +:+ NL) else mret tt)
           g tt o o' Hloop Hclose).
Qed.

Lemma nodesGML_writes (tables : list Table.t) :
  writes (forRange tables (λ _ t, PrintNodeGML WrapString t) tt)
         tt (nodesTextGML WrapString tables).
Proof.
  pose proof (writes_forRange tables (PrintNodeGML WrapString) _
                (λ t, writes_WriteString _)) as Hall.
  eapply writes_eq; [exact Hall|].
  symmetry. by apply writes_textOf in Hall.
Qed.

(** The body of the edge loop: the port is the first local column, or
    the empty text when there is none, and nothing is written for a
    constraint without remote table. *)
Lemma edgeBody_writes (edge : Table.t → TableConstraint.t → string → string)
    (t : Table.t) (c : TableConstraint.t) :
  writes (edgeBody edge t c) tt
         (if decide (TableConstraint.RemoteTable c = "") then ""
          else edge t c (firstColumn c)).
Proof.
  unfold edgeBody, firstColumn.
  assert (writes (if negb (length (TableConstraint.Columns c) =? 0)%nat
                  then index (TableConstraint.Columns c) 0
                  else mret "")
                 (default "" (head (TableConstraint.Columns c))) "") as Hcol.
  { destruct (TableConstraint.Columns c) as [|x cols]; simpl.
    - apply writes_ret.
    - intros buf. unfold index. simpl. by rewrite append_nil_r. }
  destruct (TableConstraint.RemoteTable c == "") eqn:Hr.
  - apply string_eqb_true in Hr. rewrite decide_True by done.
    eapply writes_eq; [eapply writes_bind; [exact Hcol | apply writes_ret]|].
    done.
  - apply string_eqb_false in Hr. rewrite decide_False by done.
    eapply writes_eq;
      [eapply writes_bind; [exact Hcol | apply writes_WriteString]|].
    done.
Qed.

Lemma edges_of_table (edge : Table.t → TableConstraint.t → string → string)
    (t : Table.t) (cs : list TableConstraint.t) :
  joinAll ((λ c, if decide (TableConstraint.RemoteTable c = "") then ""
                 else edge t c (firstColumn c)) <$> cs)
  = joinAll ((λ tc, edge tc.1 tc.2 (firstColumn tc.2))
               <$> (c ← filter (λ c, TableConstraint.RemoteTable c ≠ "") cs;
                    [(t, c)])).
Proof.
  induction cs as [|c cs IH]; [done|].
  rewrite fmap_cons, filter_cons. simpl. rewrite IH.
  destruct (decide (TableConstraint.RemoteTable c = "")) as [Hr|Hr].
  - by rewrite decide_False by (by intros []).
  - by rewrite decide_True.
Qed.

Lemma edgeLoop_writes (edge : Table.t → TableConstraint.t → string → string)
    (tables : list Table.t) :
  writes (edgeLoop edge tables) tt (edgesText edge tables).
Proof.
  unfold edgeLoop, edgesText, edgesOf.
  eapply writes_eq.
  - apply (writes_forRange tables _
             (λ t, joinAll ((λ c, if decide (TableConstraint.RemoteTable c = "")
                                  then "" else edge t c (firstColumn c))
                              <$> Table.Constraints t))).
    intros t. apply writes_forRange. intros c. apply edgeBody_writes.
  - induction tables as [|t tables IH]; [done|].
    rewrite fmap_cons. simpl. rewrite fmap_app, joinAll_app, IH.
    by rewrite edges_of_table.
Qed.

Lemma PrintDOT_document (w : ioWriter.t) (tables : list Table.t) :
  PrintDOT Quote WrapString w tables
  = Done (Flush w (documentDOT Quote WrapString tables)).
Proof.
  unfold PrintDOT, withWriter.
  assert (writes
            (WriteString ("digraph {" +:+ NL) ;;
             prevGrp ← forRange tables (clusterBody Quote WrapString) "";
             (if negb (prevGrp == "") then WriteString ("}" +:+ NL) else mret tt) ;;
             edgeLoop (edgeDOT Quote) tables ;;
             WriteString (NL +:+ "}" +:+ NL))
            tt (documentDOT Quote WrapString tables)) as Hbody.
  { destruct (clusters_parts tables) as (g & o & o' & Hloop & Hclose & Htext).
    eapply writes_eq.
    - eapply writes_bind; [apply writes_WriteString|].
      eapply writes_bind; [exact Hloop|].
      eapply writes_bind; [exact Hclose|].
      eapply writes_bind; [apply edgeLoop_writes | apply writes_WriteString].
    - unfold documentDOT. rewrite Htext. by rewrite !append_assoc. }
  by rewrite Hbody.
Qed.

Lemma PrintGML_document (w : ioWriter.t) (tables : list Table.t) :
  PrintGML Quote WrapString w tables
  = Done (Flush w (documentGML Quote WrapString tables)).
Proof.
  unfold PrintGML, withWriter.
  assert (writes
            (WriteString ("graph [" +:+ NL) ;;
             forRange tables (λ _ t, PrintNodeGML WrapString t) tt ;;
             edgeLoop (edgeGML Quote) tables ;;
             WriteString ("]" +:+ NL))
            tt (documentGML Quote WrapString tables)) as Hbody.
  { eapply writes_eq.
    - eapply writes_bind; [apply writes_WriteString|].
      eapply writes_bind; [apply nodesGML_writes|].
      eapply writes_bind; [apply edgeLoop_writes | apply writes_WriteString].
    - unfold documentGML. by rewrite !append_assoc. }
  by rewrite Hbody.
Qed.

Lemma PrintGraphML_PrintDOT (w : ioWriter.t) (tables : list Table.t) :
  PrintGraphML Quote WrapString w tables = PrintDOT Quote WrapString w tables.
Proof. reflexivity. Qed.

Lemma edgesOf_elem (tables : list Table.t) (t : Table.t) (c : TableConstraint.t) :
  (t, c) ∈ edgesOf tables
  ↔ t ∈ tables ∧ c ∈ Table.Constraints t ∧ TableConstraint.RemoteTable c ≠ "".
Proof.
  unfold edgesOf. rewrite list_elem_of_bind. split.
  - intros (t' & (c' & [= <- <-]%list_elem_of_singleton
                     & [Hr Hc]%list_elem_of_filter)%list_elem_of_bind & Ht).
    done.
  - intros (Ht & Hc & Hr). exists t. split; [|done].
    apply list_elem_of_bind. exists c. split; [left|].
    by apply list_elem_of_filter.
Qed.

Lemma edgesOf_cons (t : Table.t) (tables : list Table.t) :
  edgesOf (t :: tables)
  = (pair t <$> filter (λ c, TableConstraint.RemoteTable c ≠ "")
                       (Table.Constraints t))
    ++ edgesOf tables.
Proof.
  unfold edgesOf. change ((t :: tables) ≫= ?f) with (f t ++ (tables ≫= f)).
  f_equal.
Qed.

Lemma edgesOf_length (tables : list Table.t) :
  length (edgesOf tables)
  = sum_list ((λ t, length (filter (λ c, TableConstraint.RemoteTable c ≠ "")
                                   (Table.Constraints t))) <$> tables).
Proof.
  induction tables as [|t tables IH]; [done|].
  rewrite edgesOf_cons, length_app, length_fmap, IH. done.
Qed.

Lemma edgesOf_none (tables : list Table.t) :
  Forall (λ t, Forall (λ c, TableConstraint.RemoteTable c = "")
                      (Table.Constraints t)) tables →
  edgesOf tables = [].
Proof.
  induction 1 as [|t tables Ht _ IH]; [done|].
  rewrite edgesOf_cons, IH, app_nil_r.
  induction Ht as [|c cs Hc _ IHc]; [done|].
  rewrite filter_cons, decide_False by (by intros []). done.
Qed.
Lemma edgesText_contains (edge : Table.t → TableConstraint.t → string → string)
    (tables : list Table.t) (t : Table.t) (c : TableConstraint.t) :
  (t, c) ∈ edgesOf tables →
  ∃ before after,
    edgesText edge tables = before +:+ edge t c (firstColumn c) +:+ after.
Proof.
  intros (l1 & l2 & Hsplit)%list_elem_of_split. unfold edgesText.
  rewrite Hsplit, fmap_app, fmap_cons, joinAll_app. eauto.
Qed.
End RenderersFacts.

(** C6: every renderer writes, between the nodes and the closing line,
    exactly one edge per constraint that has a remote table, in table
    order and constraint order, and nothing for the constraints without
    one; the first local column is the port on both sides of the edge. *)
Theorem renderers_one_edge_per_remote_constraint
    (Quote : string → string) (WrapString : string → nat → string)
    (w : ioWriter.t) (tables : list Table.t) :
  PrintDOT Quote WrapString w tables
  = Done (Flush w ("digraph {" +:+ NL +:+ clustersText Quote WrapString tables
                   +:+ joinAll ((λ tc, edgeDOT Quote tc.1 tc.2 (firstColumn tc.2))
                                  <$> edgesOf tables)
                   +:+ NL +:+ "}" +:+ NL))
  ∧ PrintGML Quote WrapString w tables
    = Done (Flush w ("graph [" +:+ NL +:+ nodesTextGML WrapString tables
                     +:+ joinAll ((λ tc, edgeGML Quote tc.1 tc.2 (firstColumn tc.2))
                                    <$> edgesOf tables)
                     +:+ "]" +:+ NL))
  ∧ PrintGraphML Quote WrapString w tables
    = Done (Flush w ("digraph {" +:+ NL +:+ clustersText Quote WrapString tables
                     +:+ joinAll ((λ tc, edgeDOT Quote tc.1 tc.2 (firstColumn tc.2))
                                    <$> edgesOf tables)
                     +:+ NL +:+ "}" +:+ NL))
  ∧ (∀ t c, (t, c) ∈ edgesOf tables
            ↔ t ∈ tables ∧ c ∈ Table.Constraints t
              ∧ TableConstraint.RemoteTable c ≠ "")
  ∧ length (edgesOf tables)
    = sum_list ((λ t, length (filter (λ c, TableConstraint.RemoteTable c ≠ "")
                                     (Table.Constraints t))) <$> tables)
  ∧ (∀ col cols ro rt rn,
       firstColumn (TableConstraint.mk (col :: cols) ro rt rn) = col)
  ∧ (∀ t c,
       edgeDOT Quote t c (firstColumn c)
       = "  " +:+ name [Table.Owner t; Table.Name t] +:+ ":" +:+ firstColumn c
         +:+ " -> "
         +:+ name [TableConstraint.RemoteOwner c; TableConstraint.RemoteTable c]
         +:+ ":" +:+ firstColumn c
         +:+ " [label=" +:+ Quote (TableConstraint.RemoteName c) +:+ "];" +:+ NL)
  ∧ (∀ t c,
       edgeGML Quote t c (firstColumn c)
       = TAB +:+ "edge [" +:+ NL +:+ TAB +:+ TAB +:+ "source "
         +:+ name [Table.Owner t; Table.Name t] +:+ ":" +:+ firstColumn c
         +:+ NL +:+ TAB +:+ TAB +:+ "target "
         +:+ name [TableConstraint.RemoteOwner c; TableConstraint.RemoteTable c]
         +:+ ":" +:+ firstColumn c
         +:+ NL +:+ TAB +:+ TAB +:+ "label "
         +:+ Quote (TableConstraint.RemoteName c)
         +:+ NL +:+ TAB +:+ "]" +:+ NL).
Proof.
  split; [apply PrintDOT_document|].
  split; [apply PrintGML_document|].
  split; [rewrite PrintGraphML_PrintDOT; apply PrintDOT_document|].
  split; [apply edgesOf_elem|].
  split; [apply edgesOf_length|].
  done.
Qed.

Example edgesOf_skips_local_constraints :
  edgesOf [tableAmp; tableNoEdge]
  = [ (tableAmp, TableConstraint.mk ["ID"] "SCOTT" "DEPT" "F&K<1") ].
Proof. reflexivity. Qed.

(** C10: no renderer panics, whatever the tables: each one hands its
    whole document to the writer.  For a constraint with a remote table
    and no local column, the body of the edge loop writes the edge with
    the empty text as port on both sides, and that edge stands among the
    edges of the document. *)
Theorem renderers_total_without_columns
    (Quote : string → string) (WrapString : string → nat → string)
    (w : ioWriter.t) (tables : list Table.t)
    (t : Table.t) (c : TableConstraint.t) (buf : string) :
  TableConstraint.Columns c = [] →
  TableConstraint.RemoteTable c ≠ "" →
  t ∈ tables →
  c ∈ Table.Constraints t →
  PrintDOT Quote WrapString w tables
  = Done (Flush w (documentDOT Quote WrapString tables))
  ∧ PrintGML Quote WrapString w tables
    = Done (Flush w (documentGML Quote WrapString tables))
  ∧ PrintGraphML Quote WrapString w tables
    = Done (Flush w (documentDOT Quote WrapString tables))
  ∧ edgeBody (edgeDOT Quote) t c buf = Done (tt, buf +:+ edgeDOT Quote t c "")
  ∧ edgeBody (edgeGML Quote) t c buf = Done (tt, buf +:+ edgeGML Quote t c "")
  ∧ (∃ before after,
       edgesText (edgeDOT Quote) tables
       = before +:+ edgeDOT Quote t c "" +:+ after)
  ∧ (∃ before after,
       edgesText (edgeGML Quote) tables
       = before +:+ edgeGML Quote t c "" +:+ after)
  ∧ edgeDOT Quote t c ""
    = "  " +:+ name [Table.Owner t; Table.Name t] +:+ ":" +:+ ""
      +:+ " -> "
      +:+ name [TableConstraint.RemoteOwner c; TableConstraint.RemoteTable c]
      +:+ ":" +:+ ""
      +:+ " [label=" +:+ Quote (TableConstraint.RemoteName c) +:+ "];" +:+ NL.
Proof.
  intros Hcols Hremote Ht Hc.
  assert (firstColumn c = "") as Hfirst.
  { unfold firstColumn. by rewrite Hcols. }
  assert ((t, c) ∈ edgesOf tables) as Hedge by (by apply edgesOf_elem).
  split; [apply PrintDOT_document|].
  split; [apply PrintGML_document|].
  split; [rewrite PrintGraphML_PrintDOT; apply PrintDOT_document|].
  assert (∀ edge, edgeBody edge t c buf = Done (tt, buf +:+ edge t c "")) as Hbody.
  { intros edge. rewrite (edgeBody_writes edge t c buf).
    rewrite decide_False by done. by rewrite Hfirst. }
  split; [apply Hbody|]. split; [apply Hbody|].
  split; [|split; [|done]].
  - rewrite <- Hfirst. by apply edgesText_contains.
  - rewrite <- Hfirst. by apply edgesText_contains.
Qed.

Lemma renderers_total_without_columns_witness :
  edgeBody (edgeDOT Sample.Quote) tableNoColumns constraintNoColumns ""
  = Done (tt, "  SCOTT__EMP: -> SCOTT__DEPT: [label="
              +:+ DQ +:+ "FK_DEPT" +:+ DQ +:+ "];" +:+ NL).
Proof.
  destruct (renderers_total_without_columns Sample.Quote Sample.WrapString
              Sample.healthy [tableNoColumns] tableNoColumns constraintNoColumns "")
    as (_ & _ & _ & Hbody & _).
  - reflexivity.
  - discriminate.
  - left.
  - left.
  - rewrite Hbody. reflexivity.
Defined.

(** C5, as the code has it: [PrintGraphML] writes, byte for byte, what
    [PrintDOT] writes: the same clusters, nodes and edges, with the same
    escaping (the HTML escaping of comments and types, the quoting of
    [%q] for ports and labels). *)
Theorem PrintGraphML_same_as_PrintDOT
    (Quote : string → string) (WrapString : string → nat → string)
    (w : ioWriter.t) (tables : list Table.t) :
  PrintGraphML Quote WrapString w tables = PrintDOT Quote WrapString w tables
  ∧ PrintGraphML Quote WrapString w tables
    = Done (Flush w (documentDOT Quote WrapString tables)).
Proof.
  split; [apply PrintGraphML_PrintDOT|].
  rewrite PrintGraphML_PrintDOT. apply PrintDOT_document.
Qed.

(** C5 as stated fails: on a foreign key whose name holds [&] and [<],
    which XML text must escape and a quoted box-diagram label must not,
    [PrintGraphML] writes what [PrintDOT] writes, the name unescaped. *)
Lemma PrintGraphML_does_not_escape_for_XML :
  ∃ doc,
    PrintGraphML Sample.Quote Sample.WrapString Sample.healthy [tableAmp]
    = Done (ioWriter.mk doc None, None)
    ∧ PrintDOT Sample.Quote Sample.WrapString Sample.healthy [tableAmp]
      = Done (ioWriter.mk doc None, None)
    ∧ Contains doc ("[label=" +:+ DQ +:+ "F&K<1" +:+ DQ +:+ "]") = true
    ∧ Contains doc "F&amp;K&lt;1" = false.
Proof. eexists. repeat split; vm_compute; reflexivity. Qed.

(** C9, as the code has it: on a writer in order and for no table at
    all, [PrintDOT] and [PrintGraphML] both write the empty box-diagram
    document and [PrintGML] the empty generic-graph document, with
    balanced delimiters, and return no error; for tables none of whose
    constraints has a remote table the documents hold the nodes and no
    edge. *)
Theorem renderers_without_edges
    (Quote : string → string) (WrapString : string → nat → string)
    (w : ioWriter.t) (tables : list Table.t) :
  ioWriter.fault w = None →
  Forall (λ t, Forall (λ c, TableConstraint.RemoteTable c = "")
                      (Table.Constraints t)) tables →
  PrintDOT Quote WrapString w []
  = Done (ioWriter.mk (ioWriter.written w +:+ emptyDOT) None, None)
  ∧ PrintGML Quote WrapString w []
    = Done (ioWriter.mk (ioWriter.written w +:+ emptyGML) None, None)
  ∧ PrintGraphML Quote WrapString w []
    = Done (ioWriter.mk (ioWriter.written w +:+ emptyDOT) None, None)
  ∧ balanced "{" "}" emptyDOT = true
  ∧ balanced "[" "]" emptyGML = true
  ∧ edgesOf tables = []
  ∧ PrintDOT Quote WrapString w tables
    = Done (ioWriter.mk (ioWriter.written w +:+ "digraph {" +:+ NL
                         +:+ clustersText Quote WrapString tables
                         +:+ NL +:+ "}" +:+ NL) None, None)
  ∧ PrintGML Quote WrapString w tables
    = Done (ioWriter.mk (ioWriter.written w +:+ "graph [" +:+ NL
                         +:+ nodesTextGML WrapString tables
                         +:+ "]" +:+ NL) None, None)
  ∧ PrintGraphML Quote WrapString w tables
    = Done (ioWriter.mk (ioWriter.written w +:+ "digraph {" +:+ NL
                         +:+ clustersText Quote WrapString tables
                         +:+ NL +:+ "}" +:+ NL) None, None).
Proof.
  intros Hw Hnone.
  assert (∀ doc, Flush w doc = (ioWriter.mk (ioWriter.written w +:+ doc) None, None))
    as Hflush.
  { intros doc. unfold Flush. by rewrite Hw. }
  pose proof (edgesOf_none tables Hnone) as Hedges.
  split; [unfold PrintDOT, withWriter; simpl; by rewrite Hflush|].
  split; [unfold PrintGML, withWriter; simpl; by rewrite Hflush|].
  split; [unfold PrintGraphML, withWriter; simpl; by rewrite Hflush|].
  split; [done|]. split; [done|]. split; [done|].
  split; [|split].
  - rewrite PrintDOT_document, Hflush. unfold documentDOT, edgesText.
    by rewrite Hedges.
  - rewrite PrintGML_document, Hflush. unfold documentGML, edgesText.
    by rewrite Hedges.
  - rewrite PrintGraphML_PrintDOT, PrintDOT_document, Hflush.
    unfold documentDOT, edgesText. by rewrite Hedges.
Qed.

Lemma renderers_without_edges_witness :
  PrintGML Sample.Quote Sample.WrapString Sample.healthy [tableNoEdge]
  = Done (ioWriter.mk
            ("graph [" +:+ NL +:+ TAB +:+ "node [" +:+ NL +:+ TAB +:+ TAB
             +:+ "id SCOTT__DEPT" +:+ NL +:+ TAB +:+ TAB +:+ NL +:+ TAB
             +:+ "]" +:+ NL +:+ "]" +:+ NL) None, None).
Proof.
  destruct (renderers_without_edges Sample.Quote Sample.WrapString
              Sample.healthy [tableNoEdge])
    as (_ & _ & _ & _ & _ & _ & _ & Hgml & _).
  - reflexivity.
  - repeat constructor.
  - rewrite Hgml. reflexivity.
Defined.

(** C9 as stated fails for the XML-graph renderer: what [PrintGraphML]
    writes for no table is the box-diagram document, which does not
    begin as an XML document does. *)
Lemma PrintGraphML_empty_is_not_XML :
  PrintGraphML Sample.Quote Sample.WrapString Sample.healthy []
  = Done (ioWriter.mk emptyDOT None, None)
  ∧ startsLikeXML emptyDOT = false.
Proof. split; reflexivity. Qed.

(** * Further properties of the code *)

(** ** The grouping key, once more *)

Lemma IndexByte_Some_ContainsByte (s : string) (c : ascii) (m : nat) :
  IndexByte s c = Some m → ContainsByte s c = true.
Proof.
  revert m. induction s as [|a s IH]; intros m; simpl; [done|].
  destruct (Ascii.eqb a c); [done|].
  destruct (IndexByte s c) as [m'|]; simpl; [|done].
  intros _. by apply (IH m').
Qed.

Lemma grp_piece (s : string) :
  grp s = s
  ∨ (ContainsByte s "_" = true ∧ 2 < String.length (grp s)
     ∧ ∃ before after, s = before +:+ "_" +:+ grp s +:+ after).
Proof.
  rewrite grp_unfold. unfold grp_spec, SplitN. cbn [genSplit_loop].
  destruct (IndexByte s "_") as [m|] eqn:Hm; [|by left].
  pose proof (IndexByte_cut s "_" m Hm) as Hs.
  pose proof (IndexByte_Some_ContainsByte s "_" m Hm) as Hc.
  set (p0 := slice_to m s) in *. set (rest := slice_from (m + 1) s) in *.
  destruct (IndexByte rest "_") as [m2|] eqn:Hm2; cbn [tail List.find].
  - pose proof (IndexByte_cut rest "_" m2 Hm2) as Hrest.
    set (p1 := slice_to m2 rest) in *. set (p2 := slice_from (m2 + 1) rest) in *.
    destruct (2 <? String.length p1)%nat eqn:H1.
    { right. split; [done|]. split; [by apply Nat.ltb_lt|].
      exists p0, (String "_" p2). rewrite Hs at 1. by rewrite Hrest at 1. }
    destruct (2 <? String.length p2)%nat eqn:H2; [|by left].
    right. split; [done|]. split; [by apply Nat.ltb_lt|].
    exists (p0 +:+ String "_" p1), "".
    rewrite Hs at 1. rewrite Hrest at 1.
    by rewrite append_nil_r, !append_assoc.
  - destruct (2 <? String.length rest)%nat eqn:H1; [|by left].
    right. split; [done|]. split; [by apply Nat.ltb_lt|].
    exists p0, "". rewrite Hs at 1. by rewrite append_nil_r.
Qed.

(** X1: The group key is the whole name or a piece of it that stands after
    an underscore and is longer than 2 bytes; a name without underscore
    is its own group, and only the empty name has the empty group. *)
Theorem grp_whole_or_piece (s : string) :
  (grp s = "" ↔ s = "")
  ∧ (grp s = s
     ∨ (ContainsByte s "_" = true ∧ 2 < String.length (grp s)
        ∧ ∃ before after, s = before +:+ "_" +:+ grp s +:+ after)).
Proof.
  split; [|apply grp_piece].
  split.
  - intros Hg. destruct (grp_piece s) as [Hs|(_ & Hlen & _)]; [congruence|].
    rewrite Hg in Hlen. simpl in Hlen. lia.
  - by intros ->.
Qed.

(** ** Node identifiers, once more *)

Lemma Replace_replDot_clean (s : string) :
  ContainsByte (Replace replDot s) "." = false
  ∧ ContainsByte (Replace replDot s) "$" = false.
Proof.
  induction s as [|a s [IH1 IH2]]; [done|].
  cbn [Replace replDot lookup_pair].
  destruct (Ascii.eqb a ".") eqn:Hdot; [by rewrite !ContainsByte_append, IH1, IH2|].
  destruct (Ascii.eqb a "$") eqn:Hdollar; [by rewrite !ContainsByte_append, IH1, IH2|].
  cbn [ContainsByte]. by rewrite Hdot, Hdollar, IH1, IH2.
Qed.

(** X2: Whatever strings it is given, [name] returns an identifier without
    [.] and without [$]. *)
Theorem name_has_no_dot_no_dollar (s : list string) :
  ContainsByte (name s) "." = false ∧ ContainsByte (name s) "$" = false.
Proof. apply Replace_replDot_clean. Qed.

(** ** The comparators as orders *)

(** X3: [byRankSize.Less] is the strict lexicographic order of the rank
    weight (number of constraints, then number of columns): irreflexive,
    asymmetric and transitive, and two tables it does not order either
    way are those of equal weight. *)
Theorem byRankSize_Less_strict_weak_order (a b c : Table.t) :
  byRankSize.Less a a = false
  ∧ byRankSize.Less a b && byRankSize.Less b a = false
  ∧ implb (byRankSize.Less a b && byRankSize.Less b c) (byRankSize.Less a c) = true
  ∧ negb (byRankSize.Less a b) && negb (byRankSize.Less b a)
    = bool_decide (rankWeight a = rankWeight b).
Proof.
  unfold byRankSize.Less, rankWeight.
  destruct a as [? ? ? ca ka], b as [? ? ? cb kb], c as [? ? ? cc kc]. simpl.
  generalize (length ka), (length kb), (length kc),
             (length ca), (length cb), (length cc).
  intros x y z u v w.
  repeat split.
  - destruct (Nat.ltb_spec x x); [lia|]. apply Nat.ltb_irrefl.
  - destruct (Nat.ltb_spec x y), (Nat.ltb_spec y x),
             (Nat.ltb_spec u v), (Nat.ltb_spec v u); simpl; try done; lia.
  - destruct (Nat.ltb_spec x y), (Nat.ltb_spec y x), (Nat.ltb_spec y z),
             (Nat.ltb_spec z y), (Nat.ltb_spec x z), (Nat.ltb_spec z x),
             (Nat.ltb_spec u v), (Nat.ltb_spec v w), (Nat.ltb_spec u w);
      simpl; try done; lia.
  - case_bool_decide as Heq.
    + injection Heq as -> ->. by rewrite !Nat.ltb_irrefl.
    + destruct (Nat.ltb_spec x y), (Nat.ltb_spec y x),
               (Nat.ltb_spec u v), (Nat.ltb_spec v u); simpl; try done.
      exfalso. apply Heq. f_equal; lia.
Qed.

Lemma compare_refl (a : string) : String.compare a a = Eq.
Proof.
  induction a as [|x a IH]; simpl; [done|].
  unfold Ascii.compare. by rewrite N.compare_refl.
Qed.

Lemma lt_irrefl (a : string) : lt a a = false.
Proof. unfold lt, String.ltb. by rewrite compare_refl. Qed.

Lemma lt_leb (a b : string) : lt a b = true ↔ String.leb a b = true ∧ a ≠ b.
Proof.
  unfold lt, String.ltb, String.leb.
  destruct (String.compare a b) eqn:Hc.
  - apply String.compare_eq_iff in Hc. split; [done | tauto].
  - split; [|done]. intros _. split; [done|].
    intros ->. by rewrite compare_refl in Hc.
  - split; [done | tauto].
Qed.

Lemma lt_trans (a b c : string) : lt a b = true → lt b c = true → lt a c = true.
Proof.
  rewrite !lt_leb. intros [Hab Hne] [Hbc Hne'].
  assert (String.le a c) as Hac.
  { transitivity b; unfold String.le; by apply Is_true_true. }
  split; [by apply Is_true_true|].
  intros ->. apply Hne. by apply String.leb_antisym.
Qed.

Lemma lt_asym (a b : string) : lt a b = true → lt b a = false.
Proof.
  intros Hab. apply not_true_is_false. intros Hba.
  pose proof (lt_trans a b a Hab Hba) as Haa. by rewrite lt_irrefl in Haa.
Qed.

Lemma lt_total (a b : string) : a ≠ b → lt a b = true ∨ lt b a = true.
Proof.
  intros Hne. rewrite !lt_leb.
  destruct (String.leb_total a b); [left | right]; by split.
Qed.

(** Within one owner the comparator of the second pass orders by group
    and then by name. *)
Lemma byNameGroup_Less_same_owner (a b : Table.t) :
  Table.Owner a = Table.Owner b →
  byNameGroup.Less a b = true
  ↔ lt (tableGroup a) (tableGroup b) = true
    ∨ (tableGroup a = tableGroup b ∧ lt (Table.Name a) (Table.Name b) = true).
Proof.
  intros Ho. unfold byNameGroup.Less, tableGroup. rewrite Ho, lt_irrefl.
  destruct (lt (grp (Table.Name a)) (grp (Table.Name b))) eqn:H1.
  { split; [by left | done]. }
  destruct (lt (grp (Table.Name b)) (grp (Table.Name a))) eqn:H2.
  { split; [done|]. intros [?|[Hg _]]; [done|].
    rewrite Hg, lt_irrefl in H2. done. }
  destruct (decide (grp (Table.Name a) = grp (Table.Name b))) as [Hg|Hg].
  - split; [by right | by intros [?|[_ ?]]].
  - destruct (lt_total _ _ Hg); congruence.
Qed.

(** X4: Among the tables of one owner [byNameGroup.Less] is a strict total
    order of the names: irreflexive, asymmetric, transitive, and it
    orders any two tables with different names. *)
Theorem byNameGroup_Less_strict_order_within_owner (a b c : Table.t) :
  Table.Owner a = Table.Owner b →
  Table.Owner b = Table.Owner c →
  byNameGroup.Less a a = false
  ∧ byNameGroup.Less a b && byNameGroup.Less b a = false
  ∧ implb (byNameGroup.Less a b && byNameGroup.Less b c) (byNameGroup.Less a c) = true
  ∧ bool_decide (Table.Name a = Table.Name b)
    || byNameGroup.Less a b || byNameGroup.Less b a = true.
Proof.
  intros Hab Hbc.
  assert (Table.Owner a = Table.Owner c) as Hac by congruence.
  pose proof (byNameGroup_Less_same_owner a a eq_refl) as Haa.
  pose proof (byNameGroup_Less_same_owner a b Hab) as Hlab.
  pose proof (byNameGroup_Less_same_owner b a (eq_sym Hab)) as Hlba.
  pose proof (byNameGroup_Less_same_owner b c Hbc) as Hlbc.
  pose proof (byNameGroup_Less_same_owner a c Hac) as Hlac.
  split; [|split; [|split]].
  - apply not_true_is_false. rewrite Haa, !lt_irrefl. by intros [?|[_ ?]].
  - apply not_true_is_false. intros [H1 H2]%andb_true_iff.
    apply Hlab in H1. apply Hlba in H2.
    destruct H1 as [H1|[Hg1 H1]], H2 as [H2|[Hg2 H2]].
    + apply lt_asym in H1. congruence.
    + rewrite Hg2, lt_irrefl in H1. done.
    + rewrite Hg1, lt_irrefl in H2. done.
    + apply lt_asym in H1. congruence.
  - destruct (byNameGroup.Less a b && byNameGroup.Less b c) eqn:Hboth; [|done].
    apply andb_true_iff in Hboth as [H1 H2]. simpl.
    apply Hlab in H1. apply Hlbc in H2. apply Hlac.
    destruct H1 as [H1|[Hg1 H1]], H2 as [H2|[Hg2 H2]].
    + left. by apply (lt_trans _ (tableGroup b)).
    + left. by rewrite <- Hg2.
    + left. by rewrite Hg1.
    + right. split; [congruence|]. by apply (lt_trans _ (Table.Name b)).
  - case_bool_decide as Hn; [done|]. simpl.
    apply orb_true_iff.
    destruct (decide (tableGroup a = tableGroup b)) as [Hg|Hg].
    + destruct (lt_total _ _ Hn); [left; apply Hlab | right; apply Hlba]; auto.
    + destruct (lt_total _ _ Hg); [left; apply Hlab | right; apply Hlba]; auto.
Qed.

Lemma byNameGroup_Less_strict_order_within_owner_witness :
  byNameGroup.Less (Table.mk "O" "A_XYZ" "" [] []) (Table.mk "O" "B_ABC" "" [] [])
  = false.
Proof.
  destruct (byNameGroup_Less_strict_order_within_owner
              (Table.mk "O" "B_ABC" "" [] []) (Table.mk "O" "A_XYZ" "" [] [])
              (Table.mk "O" "A_XYZ" "" [] []) eq_refl eq_refl)
    as (_ & Hasym & _).
  apply andb_false_iff in Hasym as [Hf|Hf]; [discriminate Hf | exact Hf].
Defined.

(** ** The row mergers on any stream *)

Section ReadersInvariants.
Variable TrimSpace : string → string.

Lemma appendColumn_merged (tp : Table.t) (c : Column.t) :
  Column.Unique c = false →
  (Table.Name tp ≠ "" → mergedTable tp) →
  Table.Name tp ≠ "" → mergedTable (appendColumn tp c).
Proof.
  intros Hc Htp Hname. destruct (Htp Hname) as (_ & _ & Hcons & Hflags).
  split; [done|]. split; [simpl; by destruct (Table.Columns tp)|].
  split; [done|]. simpl. apply Forall_app. split; [done|]. by constructor.
Qed.

Lemma readTables_loop_merged (rows : list (scanned ColumnRow.t)) :
  ∀ (tables : list Table.t) (tp : Table.t),
    Forall mergedTable tables →
    (Table.Name tp ≠ "" → mergedTable tp) →
    Forall mergedTable (readTables_loop TrimSpace rows tables tp).1.1
    ∧ (Table.Name (readTables_loop TrimSpace rows tables tp).1.2 ≠ "" →
       mergedTable (readTables_loop TrimSpace rows tables tp).1.2).
Proof.
  induction rows as [|[r|e] rows IH]; intros tables tp Htables Htp; [done| |done].
  cbn [readTables_loop scanColumn].
  assert (∀ ta, ta = Table.mk (ColumnRow.owner r) (ColumnRow.table_name r)
                       (TrimSpace (ColumnRow.tab_comment r))
                       [Column.mk (ColumnRow.column_name r) (ColumnRow.data_type r)
                          (TrimSpace (ColumnRow.col_comment r)) false] [] →
                Table.Name ta ≠ "" → mergedTable ta) as Hta.
  { intros ta -> Hn. split; [done|]. split; [done|]. split; [done|].
    by repeat constructor. }
  destruct (Table.Name tp == "") eqn:Hname.
  { apply IH; [done | by apply Hta]. }
  apply string_eqb_false in Hname.
  destruct (negb _).
  - apply IH; [|by apply Hta].
    apply Forall_app. split; [done|]. constructor; [by apply Htp | constructor].
  - apply IH; [done|]. intros _. by apply appendColumn_merged.
Qed.

Lemma readTables_merged (rows : list (scanned ColumnRow.t)) :
  Forall mergedTable (readTables TrimSpace rows).1.
Proof.
  unfold readTables.
  destruct (readTables_loop_merged rows [] zeroTable) as [Htables Htp];
    [constructor | done |].
  destruct (readTables_loop TrimSpace rows [] zeroTable) as [[tables tp] [e|]];
    simpl in *; [done|].
  destruct (Table.Name tp == "") eqn:Hname; simpl; [done|].
  apply string_eqb_false in Hname.
  apply Forall_app. split; [done|]. constructor; [by apply Htp | constructor].
Qed.
End ReadersInvariants.

(** X5: Whatever the stream, scan errors included, every table [readTables]
    returns has a name, at least one column, no constraint yet and no
    column flagged unique. *)
Theorem readTables_returns_merged_tables (TrimSpace : string → string)
    (rows : list (scanned ColumnRow.t)) :
  Forall (λ t, Table.Name t ≠ "" ∧ Table.Columns t ≠ []
               ∧ Table.Constraints t = []
               ∧ Forall (λ c, Column.Unique c = false) (Table.Columns t))
         (readTables TrimSpace rows).1.
Proof. apply readTables_merged. Qed.

Lemma fileConstraint_merged (m : gmap string (list Constraint.t)) (cp : Constraint.t) :
  map_Forall mergedConstraints m →
  Constraint.Name cp ≠ "" → Constraint.Columns cp ≠ [] →
  map_Forall mergedConstraints (fileConstraint m cp).
Proof.
  intros Hm Hname Hcols. unfold fileConstraint. fold (constraintMapKey cp).
  apply map_Forall_insert_2; [|done].
  split; [by destruct (default [] _)|].
  apply Forall_app. split; [|by repeat constructor].
  destruct (m !! constraintMapKey cp) as [cs|] eqn:Hk; simpl; [|constructor].
  by destruct (Hm _ _ Hk).
Qed.

Lemma appendColName_kept (cp : Constraint.t) (colName : string) :
  Constraint.Name (appendColName cp colName) = Constraint.Name cp
  ∧ Constraint.Columns (appendColName cp colName) ≠ [].
Proof.
  split; [done|]. unfold appendColName, Constraint.Columns. simpl.
  by destruct (TableConstraint.Columns _).
Qed.

Lemma readConstraints_loop_merged (rows : list (scanned ConstraintRow.t)) :
  ∀ (m : gmap string (list Constraint.t)) (cp : Constraint.t),
    map_Forall mergedConstraints m →
    (Constraint.Name cp ≠ "" → Constraint.Columns cp ≠ []) →
    map_Forall mergedConstraints (readConstraints_loop rows m cp).1.1
    ∧ (Constraint.Name (readConstraints_loop rows m cp).1.2 ≠ "" →
       Constraint.Columns (readConstraints_loop rows m cp).1.2 ≠ []).
Proof.
  induction rows as [|[r|e] rows IH]; intros m cp Hm Hcp; [done| |done].
  cbn [readConstraints_loop scanConstraint].
  destruct (Constraint.Name cp == "") eqn:Hname.
  { apply IH; [done | by intros _]. }
  apply string_eqb_false in Hname.
  destruct (negb _).
  - apply IH; [|by intros _]. apply fileConstraint_merged; auto.
  - apply IH; [done|]. intros _. apply appendColName_kept.
Qed.

(** X6: Whatever the stream, scan errors included, no key of the map
    [readConstraints] returns has an empty list, and every constraint in
    the list of a key has that key as its [owner.table], a name and at
    least one column. *)
Theorem readConstraints_returns_merged_map (rows : list (scanned ConstraintRow.t)) :
  map_Forall (λ k cs,
      cs ≠ []
      ∧ Forall (λ c, Constraint.Owner c +:+ "." +:+ Constraint.Table c = k
                     ∧ Constraint.Name c ≠ "" ∧ Constraint.Columns c ≠ []) cs)
    (readConstraints rows).1.
Proof.
  unfold readConstraints.
  destruct (readConstraints_loop_merged rows ∅ zeroConstraint) as [Hm Hcp];
    [apply map_Forall_empty | done |].
  destruct (readConstraints_loop rows ∅ zeroConstraint) as [[m cp] [e|]];
    simpl in *; [done|].
  destruct (Constraint.Name cp == "") eqn:Hname; simpl; [done|].
  apply string_eqb_false in Hname. apply fileConstraint_merged; auto.
Qed.

(** ** A scan error in the middle of a stream *)

Lemma removelast_snoc {A} (l : list A) (x : A) : removelast (l ++ [x]) = l.
Proof.
  induction l as [|a l IH]; [done|].
  simpl. rewrite IH. by destruct l.
Qed.

Section ReadersErrors.
Variable TrimSpace : string → string.

(** The loop over readable rows followed by anything else. *)
Lemma readTables_loop_app (rows : list ColumnRow.t)
    (more : list (scanned ColumnRow.t)) :
  ∀ (tables : list Table.t) (tp : Table.t),
    readTables_loop TrimSpace ((Scanned <$> rows) ++ more) tables tp
    = readTables_loop TrimSpace more
        (readTables_loop TrimSpace (Scanned <$> rows) tables tp).1.1
        (readTables_loop TrimSpace (Scanned <$> rows) tables tp).1.2.
Proof.
  induction rows as [|r rows IH]; intros tables tp; [done|].
  rewrite fmap_cons. cbn [app readTables_loop scanColumn].
  destruct (Table.Name tp == ""); [apply IH|].
  destruct (negb _); apply IH.
Qed.

Lemma readTables_scan_error (rows : list ColumnRow.t) (e : error)
    (rest : list (scanned ColumnRow.t)) :
  Forall (λ r, ColumnRow.table_name r ≠ "") rows →
  readTables TrimSpace ((Scanned <$> rows) ++ ScanError e :: rest)
  = (removelast (tableOfRun TrimSpace <$> runs tableKey rows), Some e).
Proof.
  intros Hrows. unfold readTables. rewrite readTables_loop_app.
  destruct rows as [|r rows]; [done|].
  apply Forall_cons in Hrows as [Hr Hrows].
  rewrite fmap_cons.
  cbn [readTables_loop scanColumn zeroTable Table.Name String.eqb].
  destruct (readTables_loop_runs TrimSpace rows Hrows [] r [] Hr)
    as (tables' & tp' & Hloop & Hname & Hout).
  { by intros c ->%list_elem_of_singleton. }
  cbn [tableOfRun fmap list_fmap columnOfRow scanColumn snd] in Hloop.
  rewrite Hloop. cbn [fst snd readTables_loop].
  change ([] ++ ?l) with l in Hout. change ([r] ++ rows) with (r :: rows) in Hout.
  rewrite <- Hout. by rewrite removelast_snoc.
Qed.
End ReadersErrors.

(** X7: When a row cannot be scanned, [readTables] returns the error and the
    tables merged so far without the one in progress: one table per run
    of the rows read before, except the last run; what follows the bad
    row is not read. *)
Theorem readTables_scan_error_drops_pending (TrimSpace : string → string)
    (rows : list ColumnRow.t) (e : error) (rest : list (scanned ColumnRow.t)) :
  Forall (λ r, ColumnRow.table_name r ≠ "") rows →
  readTables TrimSpace ((Scanned <$> rows) ++ ScanError e :: rest)
  = (removelast (tableOfRun TrimSpace <$> runs tableKey rows), Some e).
Proof. apply readTables_scan_error. Qed.

Lemma readTables_scan_error_drops_pending_witness :
  readTables Sample.TrimSpace rowsThenError
  = ([ Table.mk "O" "T" "" [Column.mk "A" "DATE" "" false] [] ], Some "bad row").
Proof.
  pose proof (readTables_scan_error_drops_pending Sample.TrimSpace
                [ ColumnRow.mk "O" "T" "A" "DATE" "" "";
                  ColumnRow.mk "O" "U" "A" "DATE" "" "" ]
                "bad row"
                [ Scanned (ColumnRow.mk "O" "V" "A" "DATE" "" "") ]) as H.
  simpl in H. unfold rowsThenError. rewrite H; [reflexivity|].
  repeat constructor; discriminate.
Defined.

Lemma readConstraints_loop_app (rows : list ConstraintRow.t)
    (more : list (scanned ConstraintRow.t)) :
  ∀ (m : gmap string (list Constraint.t)) (cp : Constraint.t),
    readConstraints_loop ((Scanned <$> rows) ++ more) m cp
    = readConstraints_loop more
        (readConstraints_loop (Scanned <$> rows) m cp).1.1
        (readConstraints_loop (Scanned <$> rows) m cp).1.2.
Proof.
  induction rows as [|r rows IH]; intros m cp; [done|].
  rewrite fmap_cons. cbn [app readConstraints_loop scanConstraint].
  destruct (Constraint.Name cp == ""); [apply IH|].
  destruct (negb _); apply IH.
Qed.

(** The loop of [readConstraints] files every run but the one in
    progress. *)
Lemma readConstraints_loop_pending (rows : list ConstraintRow.t) :
  Forall (λ r, ConstraintRow.constraint_name r ≠ "") rows →
  ∀ (m : gmap string (list Constraint.t)) (c0 : ConstraintRow.t)
    (cur : list ConstraintRow.t),
    ConstraintRow.constraint_name c0 ≠ "" →
    (∀ c, c ∈ c0 :: cur → constraintKey c = constraintKey c0) →
    ∃ m' cp' filed,
      readConstraints_loop (Scanned <$> rows) m (constraintOfRun (c0 :: cur))
      = (m', cp', None)
      ∧ constraintOfRun <$> runs constraintKey ((c0 :: cur) ++ rows)
        = filed ++ [cp']
      ∧ m' = foldl fileConstraint m filed.
Proof.
  induction rows as [|r rows IH]; intros Hrows m c0 cur Hc0 Hkey.
  - exists m, (constraintOfRun (c0 :: cur)), []. split; [done|]. split; [|done].
    rewrite app_nil_r. by rewrite (runs_one_key constraintKey (constraintKey c0)).
  - apply Forall_cons in Hrows as [Hr Hrows].
    rewrite fmap_cons.
    change (readConstraints_loop (Scanned r :: (Scanned <$> rows)) m
              (constraintOfRun (c0 :: cur)))
      with (if Constraint.Name (constraintOfRun (c0 :: cur)) == ""
            then readConstraints_loop (Scanned <$> rows) m (constraintOfRun [r])
            else if negb (sameConstraint (constraintOfRun [r])
                                          (constraintOfRun (c0 :: cur)))
            then readConstraints_loop (Scanned <$> rows)
                   (fileConstraint m (constraintOfRun (c0 :: cur)))
                   (constraintOfRun [r])
            else readConstraints_loop (Scanned <$> rows) m
                   (appendColName (constraintOfRun (c0 :: cur))
                                  (ConstraintRow.column_name r))).
    replace (Constraint.Name (constraintOfRun (c0 :: cur)) == "") with false
      by (symmetry; by apply string_eqb_false).
    rewrite sameConstraint_key.
    case_bool_decide as Hk; cbn [negb].
    + rewrite constraintOfRun_append by done.
      destruct (IH Hrows m c0 (cur ++ [r]) Hc0)
        as (m' & cp' & filed & Hloop & Hruns & Hm').
      { intros c [->|[Hc| ->%list_elem_of_singleton]%elem_of_app]%elem_of_cons;
          [done | apply Hkey; by right | done]. }
      exists m', cp', filed. split; [exact Hloop|]. split; [|done].
      rewrite <- Hruns.
      by replace ((c0 :: cur ++ [r]) ++ rows) with ((c0 :: cur) ++ r :: rows)
        by (simpl; by rewrite <- app_assoc).
    + destruct (IH Hrows (fileConstraint m (constraintOfRun (c0 :: cur))) r [] Hr)
        as (m' & cp' & filed & Hloop & Hruns & Hm').
      { by intros c ->%list_elem_of_singleton. }
      exists m', cp', (constraintOfRun (c0 :: cur) :: filed).
      split; [exact Hloop|]. split; [|done].
      rewrite (runs_key_change constraintKey (constraintKey c0)) by done.
      rewrite fmap_cons. change ([r] ++ rows) with (r :: rows) in Hruns.
      by rewrite Hruns.
Qed.

(** X8: When a row cannot be scanned, [readConstraints] returns the error
    and the map built so far without the constraint in progress: the
    constraints of all runs of the rows read before, except the last
    run, each filed under its key; what follows the bad row is not
    read. *)
Theorem readConstraints_scan_error_drops_pending (rows : list ConstraintRow.t)
    (e : error) (rest : list (scanned ConstraintRow.t)) :
  Forall (λ r, ConstraintRow.constraint_name r ≠ "") rows →
  readConstraints ((Scanned <$> rows) ++ ScanError e :: rest)
  = (foldl fileConstraint ∅
       (removelast (constraintOfRun <$> runs constraintKey rows)), Some e).
Proof.
  intros Hrows. unfold readConstraints. rewrite readConstraints_loop_app.
  destruct rows as [|r rows]; [done|].
  apply Forall_cons in Hrows as [Hr Hrows].
  rewrite fmap_cons.
  change (readConstraints_loop (Scanned r :: (Scanned <$> rows)) ∅ zeroConstraint)
    with (readConstraints_loop (Scanned <$> rows) ∅ (constraintOfRun [r])).
  destruct (readConstraints_loop_pending rows Hrows ∅ r [] Hr)
    as (m' & cp' & filed & Hloop & Hruns & Hm').
  { by intros c ->%list_elem_of_singleton. }
  rewrite Hloop. cbn [fst snd readConstraints_loop].
  change ([r] ++ rows) with (r :: rows) in Hruns.
  rewrite Hruns, removelast_snoc. by rewrite Hm'.
Qed.

Lemma readConstraints_scan_error_drops_pending_witness :
  (readConstraints constraintRowsThenError).1 !! "O.T"
  = Some [ Constraint.mk "O" "PK_T" "P" "T" (TableConstraint.mk ["A"] "" "" "") ]
  ∧ (readConstraints constraintRowsThenError).1 !! "O.U" = None
  ∧ (readConstraints constraintRowsThenError).2 = Some "bad row".
Proof.
  pose proof (readConstraints_scan_error_drops_pending
                [ ConstraintRow.mk "O" "PK_T" "P" "T" "A" "" "" "";
                  ConstraintRow.mk "O" "PK_U" "P" "U" "A" "" "" "" ]
                "bad row" []) as H.
  simpl in H. unfold constraintRowsThenError. rewrite H.
  - repeat split; reflexivity.
  - repeat constructor; discriminate.
Defined.

(** ** Streams in which equal keys stand together *)

Lemma elem_of_concat {A} (x : A) (ls : list (list A)) :
  x ∈ concat ls ↔ ∃ l, x ∈ l ∧ l ∈ ls.
Proof.
  rewrite list_elem_of_In, in_concat. split.
  - intros (l & Hl & Hx). exists l. by rewrite !list_elem_of_In.
  - intros (l & Hx & Hl). exists l. by rewrite <- !list_elem_of_In.
Qed.

Section GroupedFacts.
Context {R K : Type} `{EqDecision K} (key : R → K).

Lemma groupedb_cons (r r1 : R) (rest : list R) :
  groupedb key (r :: r1 :: rest) = true →
  groupedb key (r1 :: rest) = true
  ∧ (key r1 = key r ∨ ∀ x, x ∈ r1 :: rest → key x ≠ key r).
Proof.
  cbn [groupedb]. intros [Hhere Hrest]%andb_true_iff. split; [done|].
  apply orb_true_iff in Hhere as [Hsame|Hnone].
  - left. by apply bool_decide_eq_true in Hsame.
  - right. intros x Hx%list_elem_of_In.
    rewrite forallb_forall in Hnone. specialize (Hnone x Hx).
    apply negb_true_iff, bool_decide_eq_false in Hnone. done.
Qed.

Lemma runs_first (rows : list R) (r' : R) (run : list R) (others : list (list R)) :
  runs key rows = (r' :: run) :: others → ∃ rest, rows = r' :: rest.
Proof.
  intros Hruns. pose proof (runs_concat key rows) as Hc.
  rewrite Hruns in Hc. simpl in Hc. eauto.
Qed.

Lemma runs_head_elem (rows : list R) (run : list R) (h : R) :
  run ∈ runs key rows → head run = Some h → h ∈ rows.
Proof.
  intros Hrun Hh. rewrite <- (runs_concat key rows).
  apply elem_of_concat. exists run. split; [|done].
  destruct run as [|x run]; [done|]. injection Hh as ->. left.
Qed.

Lemma filter_none {A} (P : A → Prop) `{∀ x, Decision (P x)} (l : list A) :
  (∀ x, x ∈ l → ¬ P x) → filter P l = [].
Proof.
  induction l as [|a l IH]; intros Hl; [done|].
  rewrite filter_cons, decide_False by (apply Hl; left).
  apply IH. intros x Hx. apply Hl. by right.
Qed.

(** In a grouped stream no key opens two runs. *)
Lemma runs_heads_NoDup (rows : list R) :
  groupedb key rows = true →
  NoDup ((λ run, key <$> head run) <$> runs key rows).
Proof.
  induction rows as [|r rows IH]; intros Hg; [constructor|].
  cbn [runs].
  destruct (runs key rows) as [|[|r' run] others] eqn:Hruns;
    [by apply NoDup_singleton | by apply NoDup_singleton |].
  destruct (runs_first rows r' run others Hruns) as (rest & ->).
  apply groupedb_cons in Hg as [Hg Hhere].
  specialize (IH Hg). rewrite fmap_cons in IH. simpl in IH.
  destruct (decide (key r = key r')) as [Heq|Hne].
  - rewrite fmap_cons. simpl. by rewrite Heq.
  - rewrite !fmap_cons. simpl. apply NoDup_cons. split; [|done].
    destruct Hhere as [Hsame|Hnone]; [congruence|].
    intros Hin.
    change (Some (key r) ∈ (λ run, key <$> head run) <$> ((r' :: run) :: others))
      in Hin.
    apply list_elem_of_fmap in Hin as (g & Hk & Hgin).
    destruct (head g) as [h|] eqn:Hh; [|done]. injection Hk as Hk.
    apply (Hnone h); [|done].
    apply (runs_head_elem (r' :: rest) g h); [by rewrite Hruns | done].
Qed.

(** In a grouped stream a run holds all the rows of its key. *)
Lemma runs_are_filters (rows : list R) :
  groupedb key rows = true →
  Forall (λ run, ∃ h, head run = Some h
                     ∧ run = filter (λ x, key x = key h) rows)
         (runs key rows).
Proof.
  induction rows as [|r rows IH]; intros Hg; [constructor|].
  cbn [runs].
  destruct (runs key rows) as [|[|r' run] others] eqn:Hruns.
  - destruct rows as [|r0 rows].
    + repeat constructor. exists r. split; [done|].
      by rewrite filter_cons, decide_True.
    + destruct (runs_head key r0 rows) as (? & ? & Hh). congruence.
  - destruct rows as [|r0 rows]; [done|].
    destruct (runs_head key r0 rows) as (? & ? & Hh). congruence.
  - destruct (runs_first rows r' run others Hruns) as (rest & ->).
    pose proof (runs_heads_NoDup (r' :: rest)) as Hnd.
    apply groupedb_cons in Hg as [Hg Hhere].
    specialize (IH Hg). specialize (Hnd Hg). rewrite Hruns in Hnd.
    rewrite fmap_cons in Hnd. simpl in Hnd.
    apply NoDup_cons in Hnd as [Hfresh _].
    apply Forall_cons in IH as [(h0 & Hh0 & Hfirst) IH].
    injection Hh0 as <-.
    destruct (decide (key r = key r')) as [Heq|Hne].
    + constructor.
      * exists r. split; [done|].
        rewrite filter_cons, decide_True by done.
        rewrite Heq. by rewrite <- Hfirst.
      * apply Forall_forall. intros g Hgin.
        rewrite Forall_forall in IH. destruct (IH g Hgin) as (h & Hh & Hgf).
        exists h. split; [done|].
        rewrite filter_cons, decide_False; [done|].
        intros Hk. apply Hfresh. apply list_elem_of_fmap.
        exists g. split; [|done]. rewrite Hh. simpl. congruence.
    + destruct Hhere as [Hsame|Hnone]; [congruence|].
      constructor.
      * exists r. split; [done|].
        rewrite filter_cons, decide_True by done.
        by rewrite (filter_none _ (r' :: rest)).
      * apply Forall_forall. intros g Hgin.
        assert (∃ h, head g = Some h ∧ g = filter (λ x, key x = key h) (r' :: rest))
          as (h & Hh & Hgf).
        { apply elem_of_cons in Hgin as [->|Hgin]; [by exists r'|].
          rewrite Forall_forall in IH. by apply IH. }
        exists h. split; [done|].
        rewrite filter_cons, decide_False; [done|].
        intros Hk. apply (Hnone h); [|done].
        apply (runs_head_elem (r' :: rest) g h); [by rewrite Hruns | done].
Qed.
End GroupedFacts.

Lemma tableOfRun_identity (TrimSpace : string → string) (run : list ColumnRow.t) :
  run ≠ [] →
  tableKey <$> head run = Some (tableIdentity (tableOfRun TrimSpace run)).
Proof. by destruct run. Qed.

(** X9: On a stream without empty table names in which equal keys stand
    together (a sorted stream is one), [readTables] groups by key: no two
    tables it returns share owner and name, every key of the stream has
    its table, and the columns of a table are all the rows of its key,
    in row order. *)
Theorem readTables_groups_by_key (TrimSpace : string → string)
    (rows : list ColumnRow.t) :
  Forall (λ r, ColumnRow.table_name r ≠ "") rows →
  groupedb tableKey rows = true →
  NoDup (tableIdentity <$> (readTables TrimSpace (Scanned <$> rows)).1)
  ∧ Forall (λ r, tableKey r
                 ∈ tableIdentity <$> (readTables TrimSpace (Scanned <$> rows)).1)
           rows
  ∧ Forall (λ t, Table.Columns t
                 = columnOfRow TrimSpace
                     <$> filter (λ r, tableKey r = tableIdentity t) rows)
           (readTables TrimSpace (Scanned <$> rows)).1.
Proof.
  intros Hrows Hg. rewrite readTables_runs by done. simpl.
  pose proof (runs_groups tableKey rows) as Hgroups.
  split; [|split].
  - apply (NoDup_fmap_1 Some).
    replace (Some <$> (tableIdentity <$> (tableOfRun TrimSpace <$> runs tableKey rows)))
      with ((λ run, tableKey <$> head run) <$> runs tableKey rows).
    { by apply runs_heads_NoDup. }
    rewrite <- !list_fmap_compose. apply Forall_fmap_ext.
    eapply Forall_impl; [exact Hgroups|].
    intros run [Hne _]. simpl. by apply tableOfRun_identity.
  - apply Forall_forall. intros r Hr.
    rewrite <- (runs_concat tableKey rows) in Hr.
    apply elem_of_concat in Hr as (run & Hrun & Hin).
    rewrite Forall_forall in Hgroups. destruct (Hgroups run Hin) as [Hne Hsame].
    apply list_elem_of_fmap. exists (tableOfRun TrimSpace run).
    split; [|by apply list_elem_of_fmap_2].
    destruct run as [|h run]; [done|].
    apply (Hsame r h); [done | left].
  - apply Forall_fmap. eapply Forall_impl; [by apply runs_are_filters|].
    intros run (h & Hh & Hrun). simpl.
    destruct run as [|h' run]; [done|]. injection Hh as ->.
    change (tableIdentity (tableOfRun TrimSpace (h :: run))) with (tableKey h).
    by rewrite <- Hrun.
Qed.

Lemma readTables_groups_by_key_witness :
  tableIdentity <$> (readTables Sample.TrimSpace (Scanned <$> groupedRows)).1
  = [ ("O", "T"); ("O", "U") ]
  ∧ NoDup (tableIdentity
             <$> (readTables Sample.TrimSpace (Scanned <$> groupedRows)).1).
Proof.
  split; [reflexivity|].
  apply (readTables_groups_by_key Sample.TrimSpace groupedRows).
  - repeat constructor; discriminate.
  - reflexivity.
Defined.

(** ** Graph assembly, once more *)

Lemma setUnique_forget (cols : list Column.t) (f : Column.t → bool) :
  setUnique false <$> ((λ c, setUnique (f c) c) <$> cols) = setUnique false <$> cols.
Proof. rewrite <- list_fmap_compose. by apply list_fmap_ext. Qed.

Lemma assembleTable_keeps (constraints : gmap string (list Constraint.t)) (t : Table.t) :
  Table.Comment (assembleTable constraints t) = Table.Comment t
  ∧ setUnique false <$> Table.Columns (assembleTable constraints t)
    = setUnique false <$> Table.Columns t.
Proof.
  unfold assembleTable.
  destruct (foldl assembleConstraint _ _) as [tcs uCols].
  cbn [Table.Comment Table.Columns]. split; [done|].
  rewrite setUnique_loop_fmap. apply setUnique_forget.
Qed.

(** X11: In the list [getTables] returns (the sorts only reordering) every
    table is one of the tables read, with its owner, name and comment,
    with its columns unchanged but for the [Unique] flag, and with its
    constraint list extended by the constraints of type [R] filed under
    its key, in their order; no table is added or lost. *)
Theorem getTables_keeps_tables_and_attaches_foreign_keys
    (sortSort sortStable : (Table.t → Table.t → bool) → list Table.t → list Table.t)
    (constraints : gmap string (list Constraint.t)) (tables : list Table.t) :
  (∀ less l, sortSort less l ≡ₚ l) →
  (∀ less l, sortStable less l ≡ₚ l) →
  length (getTables sortSort sortStable constraints tables).1 = length tables
  ∧ Forall (λ T, ∃ t,
        t ∈ tables
        ∧ Table.Owner T = Table.Owner t
        ∧ Table.Name T = Table.Name t
        ∧ Table.Comment T = Table.Comment t
        ∧ setUnique false <$> Table.Columns T = setUnique false <$> Table.Columns t
        ∧ Table.Constraints T
          = Table.Constraints t
            ++ (Constraint.TableConstraint
                  <$> filter (λ c, Constraint.Type_ c = "R")
                        (default [] (constraints
                                       !! (Table.Owner t +:+ "." +:+ Table.Name t)))))
      (getTables sortSort sortStable constraints tables).1.
Proof.
  intros Hsort Hstable.
  assert ((getTables sortSort sortStable constraints tables).1
          ≡ₚ assembleTable constraints <$> tables) as Hperm.
  { unfold getTables. simpl. rewrite Hstable, Hsort. by rewrite assemble_loop_fmap. }
  split; [by rewrite Hperm, length_fmap|].
  rewrite Hperm. apply Forall_fmap, Forall_forall. intros t Ht. simpl.
  destruct (assembleTable_spec constraints t) as (Ho & Hn & Hfk & _).
  destruct (assembleTable_keeps constraints t) as [Hc Hcols].
  exists t. by repeat split.
Qed.

Lemma getTables_keeps_tables_and_attaches_foreign_keys_witness :
  length (getTables Sample.sortSort Sample.sortStable constraintsEmp
            [tableEmp; tableSelf]).1 = 2.
Proof.
  apply (getTables_keeps_tables_and_attaches_foreign_keys
           Sample.sortSort Sample.sortStable constraintsEmp [tableEmp; tableSelf]);
    intros less l; apply insertionSort_Permutation.
Defined.

(** X12: A table whose key is not in the constraint map leaves the assembly
    with the constraints it had and with no column flagged unique,
    whatever the flags were before. *)
Theorem assembleTable_without_entry (constraints : gmap string (list Constraint.t))
    (t : Table.t) :
  constraints !! (Table.Owner t +:+ "." +:+ Table.Name t) = None →
  Table.Constraints (assembleTable constraints t) = Table.Constraints t
  ∧ Forall (λ c, Column.Unique c = false) (Table.Columns (assembleTable constraints t)).
Proof.
  intros Hnone.
  destruct (assembleTable_spec constraints t) as (_ & _ & Hfk & Hflag).
  rewrite Hnone in Hfk, Hflag. simpl in Hfk, Hflag.
  split; [by rewrite Hfk, app_nil_r|].
  apply Forall_forall. intros c Hc. apply not_true_is_false.
  intros Hu. apply (Hflag c Hc) in Hu as (k & []%elem_of_nil & _).
Qed.

Lemma assembleTable_without_entry_witness :
  Table.Constraints (assembleTable constraintsEmp tableNoEdge)
  = Table.Constraints tableNoEdge
  ∧ Forall (λ c, Column.Unique c = false)
           (Table.Columns (assembleTable constraintsEmp tableNoEdge)).
Proof.
  apply (assembleTable_without_entry constraintsEmp tableNoEdge). reflexivity.
Defined.

(** ** The clusters of the box diagram *)

Section ClusterFacts.
Variable Quote : string → string.
Variable WrapString : string → nat → string.

Lemma PrintNodeDOT_nodeText (t : Table.t) :
  writes (PrintNodeDOT Quote WrapString t) tt (nodeTextDOT Quote WrapString t).
Proof.
  destruct (PrintNodeDOT_writes Quote WrapString t) as (o & Ho).
  eapply writes_eq; [exact Ho|]. symmetry. by apply (writes_textOf _ tt).
Qed.

Lemma tableGroup_nonempty (t : Table.t) :
  Table.Name t ≠ "" → tableGroup t ≠ "".
Proof.
  intros Hn Hg. apply Hn. unfold tableGroup in Hg.
  destruct (grp_piece (Table.Name t)) as [Hs|(_ & Hlen & _)]; [congruence|].
  rewrite Hg in Hlen. simpl in Hlen. lia.
Qed.

(** The body of the cluster loop when a cluster is open. *)
Lemma clusterBody_open (prev : string) (t : Table.t) :
  prev ≠ "" →
  writes (clusterBody Quote WrapString prev t)
         (tableGroup t)
         ((if decide (tableGroup t = prev) then ""
           else closeCluster +:+ openCluster (tableGroup t))
          +:+ nodeTextDOT Quote WrapString t).
Proof.
  intros Hprev. unfold clusterBody. fold (tableGroup t).
  apply string_eqb_false in Hprev. rewrite Hprev.
  destruct (decide (tableGroup t = prev)) as [Hg|Hg].
  - rewrite Hg, String.eqb_refl. cbn [negb].
    eapply writes_bind; [apply writes_ret|].
    eapply writes_eq;
      [eapply writes_bind; [apply PrintNodeDOT_nodeText | apply writes_ret]|].
    by rewrite append_nil_r.
  - apply string_eqb_false in Hg. rewrite Hg. cbn [negb].
    eapply writes_eq.
    + eapply writes_bind.
      { eapply writes_bind; [apply writes_WriteString | apply writes_ret]. }
      eapply writes_bind; [apply PrintNodeDOT_nodeText | apply writes_ret].
    + unfold closeCluster, openCluster. by rewrite !append_nil_r, !append_assoc.
Qed.

(** The body of the cluster loop before any cluster is open. *)
Lemma clusterBody_first (t : Table.t) :
  writes (clusterBody Quote WrapString "" t)
         (tableGroup t)
         (openCluster (tableGroup t) +:+ nodeTextDOT Quote WrapString t).
Proof.
  unfold clusterBody. fold (tableGroup t). cbn [String.eqb].
  eapply writes_eq.
  - eapply writes_bind.
    { eapply writes_bind; [apply writes_WriteString | apply writes_ret]. }
    eapply writes_bind; [apply PrintNodeDOT_nodeText | apply writes_ret].
  - unfold openCluster. by rewrite !append_nil_r.
Qed.

Lemma joinAll_fmap_cons {A} (f : A → string) (a : A) (l : list A) :
  joinAll (f <$> a :: l) = f a +:+ joinAll (f <$> l).
Proof. reflexivity. Qed.

Lemma clusterBlock_cons (t : Table.t) (run : list Table.t) :
  clusterBlock Quote WrapString (t :: run)
  = openCluster (tableGroup t)
    +:+ joinAll (nodeTextDOT Quote WrapString <$> (t :: run)) +:+ closeCluster.
Proof. unfold clusterBlock, openCluster, closeCluster. by rewrite !append_assoc. Qed.

(** The cluster loop, entered with the cluster of the run [c0 :: cur]
    open. *)
Lemma clusterLoop_runs (rows : list Table.t) :
  Forall (λ t, Table.Name t ≠ "") rows →
  ∀ (c0 : Table.t) (cur : list Table.t),
    Table.Name c0 ≠ "" →
    (∀ c, c ∈ c0 :: cur → tableGroup c = tableGroup c0) →
    ∃ g out,
      writes (forRange rows (clusterBody Quote WrapString) (tableGroup c0)) g out
      ∧ g ≠ ""
      ∧ openCluster (tableGroup c0)
        +:+ joinAll (nodeTextDOT Quote WrapString <$> (c0 :: cur))
        +:+ out +:+ closeCluster
        = joinAll (clusterBlock Quote WrapString
                     <$> runs tableGroup ((c0 :: cur) ++ rows)).
Proof.
  induction rows as [|r rows IH]; intros Hrows c0 cur Hc0 Hkey.
  - exists (tableGroup c0), "". split; [apply writes_ret|].
    split; [by apply tableGroup_nonempty|].
    rewrite app_nil_r, (runs_one_key tableGroup (tableGroup c0)) by done.
    cbn [fmap list_fmap joinAll foldr].
    by rewrite clusterBlock_cons, append_nil_r.
  - apply Forall_cons in Hrows as [Hr Hrows].
    pose proof (clusterBody_open (tableGroup c0) r (tableGroup_nonempty c0 Hc0))
      as Hbody.
    destruct (decide (tableGroup r = tableGroup c0)) as [Hg|Hg].
    + destruct (IH Hrows c0 (cur ++ [r]) Hc0) as (g & out & Hloop & Hne & Hout).
      { intros c [->|[Hc| ->%list_elem_of_singleton]%elem_of_app]%elem_of_cons;
          [done | apply Hkey; by right | done]. }
      exists g, (nodeTextDOT Quote WrapString r +:+ out).
      split; [|split; [done|]].
      * cbn [forRange]. rewrite <- Hg in Hloop.
        eapply writes_bind; [exact Hbody | exact Hloop].
      * replace ((c0 :: cur) ++ r :: rows) with ((c0 :: cur ++ [r]) ++ rows)
          by (simpl; by rewrite <- app_assoc).
        rewrite <- Hout.
        change (c0 :: cur ++ [r]) with ((c0 :: cur) ++ [r]).
        rewrite fmap_app, joinAll_app. cbn [fmap list_fmap joinAll foldr].
        by rewrite append_nil_r, !append_assoc.
    + destruct (IH Hrows r [] Hr) as (g & out & Hloop & Hne & Hout).
      { by intros c ->%list_elem_of_singleton. }
      exists g, (closeCluster +:+ openCluster (tableGroup r)
                 +:+ nodeTextDOT Quote WrapString r +:+ out).
      split; [|split; [done|]].
      * cbn [forRange]. eapply writes_eq.
        { eapply writes_bind; [exact Hbody | exact Hloop]. }
        by rewrite !append_assoc.
      * rewrite (runs_key_change tableGroup (tableGroup c0)) by done.
        change ([r] ++ rows) with (r :: rows) in Hout.
        rewrite (joinAll_fmap_cons (clusterBlock Quote WrapString)), <- Hout,
          clusterBlock_cons.
        cbn [fmap list_fmap joinAll foldr].
        by rewrite !append_nil_r, !append_assoc.
Qed.

Lemma clustersText_runs (tables : list Table.t) :
  Forall (λ t, Table.Name t ≠ "") tables →
  clustersText Quote WrapString tables
  = joinAll (clusterBlock Quote WrapString <$> runs tableGroup tables).
Proof.
  intros Htables. destruct tables as [|t rows]; [done|].
  apply Forall_cons in Htables as [Ht Hrows].
  destruct (clusterLoop_runs rows Hrows t [] Ht) as (g & out & Hloop & Hne & Hout).
  { by intros c ->%list_elem_of_singleton. }
  change ([t] ++ rows) with (t :: rows) in Hout. rewrite <- Hout.
  apply (writes_textOf _ tt).
  eapply writes_eq.
  - eapply (writes_bind _ (λ prevGrp, if negb (prevGrp == "")
                                      then WriteString ("}" +:+ NL) else mret tt)).
    + cbn [forRange]. eapply writes_bind; [apply clusterBody_first | exact Hloop].
    + apply string_eqb_false in Hne. rewrite Hne. apply writes_WriteString.
  - cbn [fmap list_fmap joinAll foldr]. unfold closeCluster.
    by rewrite !append_nil_r, !append_assoc.
Qed.
End ClusterFacts.

(** X14: When no table has an empty name, [PrintDOT] writes one cluster
    block per maximal run of consecutive tables with the same group key:
    the block is opened once, holds the nodes of the tables of the run in
    their order, and is closed; the edges follow the last block. *)
Theorem PrintDOT_one_cluster_per_run
    (Quote : string → string) (WrapString : string → nat → string)
    (w : ioWriter.t) (tables : list Table.t) :
  Forall (λ t, Table.Name t ≠ "") tables →
  maximalRuns tableGroup tables (runs tableGroup tables)
  ∧ PrintDOT Quote WrapString w tables
    = Done (Flush w
        ("digraph {" +:+ NL
         +:+ joinAll ((λ run,
                "subgraph cluster_" +:+ default "" (tableGroup <$> head run)
                +:+ " {" +:+ NL
                +:+ joinAll (nodeTextDOT Quote WrapString <$> run)
                +:+ "}" +:+ NL) <$> runs tableGroup tables)
         +:+ edgesText (edgeDOT Quote) tables
         +:+ NL +:+ "}" +:+ NL)).
Proof.
  intros Htables. split; [apply runs_maximalRuns|].
  rewrite PrintDOT_document. unfold documentDOT.
  by rewrite clustersText_runs.
Qed.

Lemma PrintDOT_one_cluster_per_run_witness :
  runs tableGroup [tableAmp; tableNoEdge; tableEmp]
  = [ [tableAmp; tableNoEdge]; [tableEmp] ]
  ∧ ∃ doc,
      PrintDOT Sample.Quote Sample.WrapString Sample.healthy
               [tableAmp; tableNoEdge; tableEmp]
      = Done (ioWriter.mk doc None, None).
Proof.
  split; [reflexivity|].
  destruct (PrintDOT_one_cluster_per_run Sample.Quote Sample.WrapString
              Sample.healthy [tableAmp; tableNoEdge; tableEmp]) as [_ Hdoc].
  - repeat constructor; discriminate.
  - rewrite Hdoc. eexists. reflexivity.
Defined.

(** X15: A table with a name whose only constraint refers to the table
    itself is drawn as one cluster with one node, followed by one edge
    whose two ends carry the same node identifier and the same port. *)
Theorem PrintDOT_self_reference
    (Quote : string → string) (WrapString : string → nat → string)
    (w : ioWriter.t) (t : Table.t) (c : TableConstraint.t) :
  Table.Name t ≠ "" →
  Table.Constraints t = [c] →
  TableConstraint.RemoteOwner c = Table.Owner t →
  TableConstraint.RemoteTable c = Table.Name t →
  PrintDOT Quote WrapString w [t]
  = Done (Flush w
      ("digraph {" +:+ NL
       +:+ "subgraph cluster_" +:+ grp (Table.Name t) +:+ " {" +:+ NL
       +:+ nodeTextDOT Quote WrapString t
       +:+ "}" +:+ NL
       +:+ "  " +:+ name [Table.Owner t; Table.Name t] +:+ ":" +:+ firstColumn c
       +:+ " -> " +:+ name [Table.Owner t; Table.Name t] +:+ ":" +:+ firstColumn c
       +:+ " [label=" +:+ Quote (TableConstraint.RemoteName c) +:+ "];" +:+ NL
       +:+ NL +:+ "}" +:+ NL)).
Proof.
  intros Hname Hcons Hro Hrt.
  rewrite PrintDOT_document. unfold documentDOT.
  rewrite clustersText_runs by (by repeat constructor).
  unfold edgesText. rewrite edgesOf_cons, Hcons.
  rewrite filter_cons, decide_True by (by rewrite Hrt).
  cbn [runs fmap list_fmap joinAll foldr filter list_filter app edgesOf mbind
       list_bind fst snd].
  unfold clusterBlock, edgeDOT. cbn [head fmap option_fmap option_map default].
  rewrite Hro, Hrt. unfold tableGroup, id.
  cbn [list_fmap joinAll foldr].
  by rewrite !append_nil_r, !append_assoc.
Qed.

Lemma PrintDOT_self_reference_witness :
  ∃ doc,
    PrintDOT Sample.Quote Sample.WrapString Sample.healthy [tableSelf]
    = Done (ioWriter.mk doc None, None)
    ∧ Contains doc "  SCOTT__EMP:MGR -> SCOTT__EMP:MGR [label=" = true.
Proof.
  pose proof (PrintDOT_self_reference Sample.Quote Sample.WrapString
                Sample.healthy tableSelf
                (TableConstraint.mk ["MGR"] "SCOTT" "EMP" "FK_MGR")) as H.
  rewrite H; [|discriminate|reflexivity|reflexivity|reflexivity].
  eexists. split; reflexivity.
Defined.

(** ** Escaping *)

Lemma lookup_pair_elem (pairs : list (ascii * string)) (a : ascii) (n : string) :
  lookup_pair pairs a = Some n → ∃ o, (o, n) ∈ pairs.
Proof.
  induction pairs as [|[o m] pairs IH]; simpl; [done|].
  destruct (Ascii.eqb a o).
  - intros [= ->]. exists o. left.
  - intros Hn. destruct (IH Hn) as (o' & Ho'). exists o'. by right.
Qed.

(** A byte that the replacer replaces, and that no replacement brings
    back, is gone from the result. *)
Lemma Replace_removes (pairs : list (ascii * string)) (c : ascii) (s : string) :
  Forall (λ p, ContainsByte p.2 c = false) pairs →
  is_Some (lookup_pair pairs c) →
  ContainsByte (Replace pairs s) c = false.
Proof.
  intros Hclean Hc. induction s as [|a s IH]; [done|].
  cbn [Replace].
  destruct (lookup_pair pairs a) as [n|] eqn:Ha.
  - rewrite ContainsByte_append, IH.
    destruct (lookup_pair_elem pairs a n Ha) as (o & Ho).
    rewrite Forall_forall in Hclean. specialize (Hclean (o, n) Ho).
    simpl in Hclean. by rewrite Hclean.
  - cbn [ContainsByte]. rewrite IH.
    destruct (Ascii.eqb a c) eqn:Hac; [|done].
    apply ascii_eqb_true in Hac as ->. rewrite Ha in Hc. by destruct Hc.
Qed.

(** X18: What [html.EscapeString] returns holds none of the bytes [<], [>],
    ['] and the double quote, whatever text goes in: the comment and type
    cells of a node cannot open or close markup of their own. *)
Theorem EscapeString_leaves_no_markup (s : string) :
  ContainsByte (EscapeString s) "<" = false
  ∧ ContainsByte (EscapeString s) ">" = false
  ∧ ContainsByte (EscapeString s) "'" = false
  ∧ ContainsByte (EscapeString s) dquote = false.
Proof.
  unfold EscapeString.
  repeat split; apply Replace_removes;
    (by repeat constructor) || (by eexists).
Qed.

(** ** The owner filter *)

Section OwnerFilterFacts.
Variable ToUpper : string → string.

Lemma ownerFilter_loop_join (owners : list string) :
  ∀ (i : nat) (buf : string),
    ownerFilter_loop ToUpper i owners buf
    = buf +:+ match owners with
              | [] => ""
              | _ => (if (i =? 0)%nat then "" else ",")
                     +:+ Join (quotedOwner ToUpper <$> owners) ","
              end.
Proof.
  induction owners as [|o owners IH]; intros i buf.
  - by rewrite append_nil_r.
  - cbn [ownerFilter_loop]. rewrite IH.
    destruct owners as [|o' owners].
    + change (Join (quotedOwner ToUpper <$> [o]) ",")
        with ("'" +:+ ToUpper (Replace replOwner o) +:+ "'").
      destruct (i =? 0)%nat; cbn [negb];
        rewrite ?append_nil_r, ?append_assoc; simpl; done.
    + change (Join (quotedOwner ToUpper <$> o :: o' :: owners) ",")
        with (("'" +:+ ToUpper (Replace replOwner o) +:+ "'") +:+ ","
              +:+ Join (quotedOwner ToUpper <$> o' :: owners) ",").
      cbn [Nat.eqb].
      destruct (i =? 0)%nat; cbn [negb];
        rewrite ?append_nil_r, ?append_assoc; simpl; done.
Qed.
End OwnerFilterFacts.

(** X19: Without owners on the command line the filter is the empty text;
    otherwise it is one [AND A.owner IN (...)] clause that lists every
    owner once, in order, each between single quotes after escaping and
    upper-casing, with commas between them and none at the ends. *)
Theorem ownerFilter_lists_owners (ToUpper : string → string)
    (owner : string) (owners : list string) :
  ownerFilter ToUpper [] = ""
  ∧ ownerFilter ToUpper (owner :: owners)
    = "AND A.owner IN ("
      +:+ Join ((λ o, "'" +:+ ToUpper (Replace replOwner o) +:+ "'")
                  <$> owner :: owners) ","
      +:+ ")".
Proof.
  split; [done|].
  unfold ownerFilter. cbn [length Nat.eqb negb].
  rewrite ownerFilter_loop_join. cbn [Nat.eqb].
  rewrite ?append_assoc. simpl. done.
Qed.

Lemma scanSQLLiteral_escaped (s : string) (c : ascii) (tail : string) :
  c ≠ "'"%char →
  scanSQLLiteral (Replace replOwner s +:+ String "'" (String c tail))
  = (Replace [ (newline, " ") ] s, Some (String c tail)).
Proof.
  intros Hc. induction s as [|a s IH].
  - cbn. apply ascii_eqb_false in Hc. by rewrite Hc.
  - cbn [Replace replOwner lookup_pair].
    destruct (Ascii.eqb a "'") eqn:Hq.
    + apply ascii_eqb_true in Hq as ->.
      rewrite append_assoc. simpl. by rewrite IH.
    + destruct (Ascii.eqb a newline) eqn:Hn.
      * simpl. by rewrite IH.
      * simpl. by rewrite Hq, IH.
Qed.

(** X20: What [replOwner] makes of an owner holds no line break, and read
    as the body of a SQL string literal it ends exactly at the quote that
    [main] writes after it, before the comma or the parenthesis: a quote
    inside the owner does not close the literal.  The text read back is
    the owner with its line breaks turned into spaces. *)
Theorem replOwner_keeps_literal_closed (owner tail : string) :
  ContainsByte (Replace replOwner owner) newline = false
  ∧ scanSQLLiteral (Replace replOwner owner +:+ "'," +:+ tail)
    = (Replace [ (newline, " ") ] owner, Some ("," +:+ tail))
  ∧ scanSQLLiteral (Replace replOwner owner +:+ "')" +:+ tail)
    = (Replace [ (newline, " ") ] owner, Some (")" +:+ tail)).
Proof.
  split; [apply Replace_removes; [by repeat constructor | by eexists]|].
  split; by apply scanSQLLiteral_escaped.
Qed.

(** ** The node printer that no renderer calls *)

(** X21: [PrintNodeGraphML] writes exactly what [PrintNodeDOT] writes, into
    any buffer. *)
Theorem PrintNodeGraphML_same_as_PrintNodeDOT
    (Quote : string → string) (WrapString : string → nat → string)
    (t : Table.t) (buf : string) :
  PrintNodeGraphML Quote WrapString t buf = PrintNodeDOT Quote WrapString t buf
  ∧ PrintNodeGraphML Quote WrapString t buf
    = Done (tt, buf +:+ nodeTextDOT Quote WrapString t).
Proof.
  split; [reflexivity|].
  apply (PrintNodeDOT_nodeText Quote WrapString t buf).
Qed.

(** ** Constraints of grouped streams, and flags from rows *)

Lemma constraintOfRun_identity (run : list ConstraintRow.t) :
  run ≠ [] →
  constraintKey <$> head run = Some (constraintIdentity (constraintOfRun run)).
Proof. by destruct run. Qed.

(** X10: On a stream without empty constraint names in which equal keys
    stand together, the constraints [readConstraints] files under a map
    key differ from one another in the fields that tell constraints
    apart, and each has for columns all the rows of its key, in row
    order. *)
Theorem readConstraints_groups_by_key (rows : list ConstraintRow.t) (k : string) :
  Forall (λ r, ConstraintRow.constraint_name r ≠ "") rows →
  groupedb constraintKey rows = true →
  NoDup (constraintIdentity
           <$> default [] ((readConstraints (Scanned <$> rows)).1 !! k))
  ∧ Forall (λ c, Constraint.Columns c
                 = ConstraintRow.column_name
                     <$> filter (λ r, constraintKey r = constraintIdentity c) rows)
           (default [] ((readConstraints (Scanned <$> rows)).1 !! k)).
Proof.
  intros Hrows Hg. rewrite readConstraints_runs by done. simpl.
  rewrite fileConstraint_lookup, lookup_empty. simpl.
  pose proof (runs_groups constraintKey rows) as Hgroups.
  split.
  - eapply sublist_NoDup; [|apply fmap_sublist, sublist_filter].
    apply (NoDup_fmap_1 Some).
    replace (Some <$> (constraintIdentity
                         <$> (constraintOfRun <$> runs constraintKey rows)))
      with ((λ run, constraintKey <$> head run) <$> runs constraintKey rows).
    { by apply runs_heads_NoDup. }
    rewrite <- !list_fmap_compose. apply Forall_fmap_ext.
    eapply Forall_impl; [exact Hgroups|].
    intros run [Hne _]. simpl. by apply constraintOfRun_identity.
  - apply Forall_forall. intros c [_ Hc]%list_elem_of_filter.
    apply list_elem_of_fmap in Hc as (run & -> & Hrun).
    pose proof (runs_are_filters constraintKey rows Hg) as Hf.
    rewrite Forall_forall in Hf. destruct (Hf run Hrun) as (h & Hh & Hfilter).
    destruct run as [|h' run]; [done|]. injection Hh as ->.
    change (constraintIdentity (constraintOfRun (h :: run))) with (constraintKey h).
    rewrite <- Hfilter. done.
Qed.

Lemma readConstraints_groups_by_key_witness :
  default [] ((readConstraints (Scanned <$> constraintRowsEmp)).1 !! "SCOTT.EMP")
  = [ Constraint.mk "SCOTT" "FK_DEPT" "R" "EMP"
        (TableConstraint.mk ["DEPTNO"] "SCOTT" "DEPT" "PK_DEPT");
      Constraint.mk "SCOTT" "PK_EMP" "P" "EMP"
        (TableConstraint.mk ["ID"; "ENAME"] "" "" "") ]
  ∧ NoDup (constraintIdentity
             <$> default [] ((readConstraints (Scanned <$> constraintRowsEmp)).1
                             !! "SCOTT.EMP")).
Proof.
  split; [reflexivity|].
  apply (readConstraints_groups_by_key constraintRowsEmp "SCOTT.EMP").
  - repeat constructor; discriminate.
  - reflexivity.
Defined.

(** The merged constraints stand for the rows: a merged constraint with
    a given type, map key and column exists exactly when a row has them. *)
Lemma merged_constraint_row (rows : list ConstraintRow.t) (k nm : string)
    (P : string → Prop) :
  (∃ c, c ∈ (constraintOfRun <$> runs constraintKey rows)
        ∧ constraintMapKey c = k ∧ P (Constraint.Type_ c)
        ∧ nm ∈ Constraint.Columns c)
  ↔ ∃ r, r ∈ rows
         ∧ ConstraintRow.owner r +:+ "." +:+ ConstraintRow.table_name r = k
         ∧ P (ConstraintRow.constraint_type r)
         ∧ ConstraintRow.column_name r = nm.
Proof.
  pose proof (runs_groups constraintKey rows) as Hgroups.
  rewrite Forall_forall in Hgroups.
  split.
  - intros (c & (run & -> & Hrun)%list_elem_of_fmap & Hk & HP & Hnm).
    destruct (Hgroups run Hrun) as [Hne Hsame].
    destruct run as [|h run]; [done|].
    change (Constraint.Columns (constraintOfRun (h :: run)))
      with (ConstraintRow.column_name <$> h :: run) in Hnm.
    apply list_elem_of_fmap in Hnm as (r & -> & Hr).
    assert (constraintKey r = constraintKey h) as Hkey by (apply Hsame; [done | left]).
    injection Hkey as Ho _ Hty Htb _ _ _.
    exists r. split.
    { rewrite <- (runs_concat constraintKey rows). apply elem_of_concat. eauto. }
    unfold constraintMapKey in Hk. simpl in Hk, HP.
    by rewrite Ho, Htb, Hty.
  - intros (r & Hr & Hk & HP & Hnm).
    rewrite <- (runs_concat constraintKey rows) in Hr.
    apply elem_of_concat in Hr as (run & Hin & Hrun).
    destruct (Hgroups run Hrun) as [Hne Hsame].
    destruct run as [|h run]; [done|].
    assert (constraintKey r = constraintKey h) as Hkey by (apply Hsame; [done | left]).
    injection Hkey as Ho _ Hty Htb _ _ _.
    exists (constraintOfRun (h :: run)).
    split; [by apply list_elem_of_fmap_2|].
    unfold constraintMapKey. simpl.
    rewrite <- Ho, <- Htb, <- Hty. split; [done|]. split; [done|].
    change (nm ∈ ConstraintRow.column_name <$> h :: run).
    rewrite <- Hnm. by apply list_elem_of_fmap_2.
Qed.

(** X13: From the constraint rows to the flags: with the constraints read
    from a stream without empty constraint names, a column of a table
    that [getTables] returns is flagged unique exactly when some row of
    type [P] or [U] names that column and has the table's
    [owner.table]. *)
Theorem unique_flag_iff_constraint_row
    (sortSort sortStable : (Table.t → Table.t → bool) → list Table.t → list Table.t)
    (rows : list ConstraintRow.t) (tables : list Table.t)
    (T : Table.t) (c : Column.t) :
  (∀ less l, sortSort less l ≡ₚ l) →
  (∀ less l, sortStable less l ≡ₚ l) →
  Forall (λ r, ConstraintRow.constraint_name r ≠ "") rows →
  T ∈ (getTables sortSort sortStable
         (readConstraints (Scanned <$> rows)).1 tables).1 →
  c ∈ Table.Columns T →
  Column.Unique c = true
  ↔ ∃ r, r ∈ rows
         ∧ ConstraintRow.owner r +:+ "." +:+ ConstraintRow.table_name r
           = Table.Owner T +:+ "." +:+ Table.Name T
         ∧ (ConstraintRow.constraint_type r = "P"
            ∨ ConstraintRow.constraint_type r = "U")
         ∧ ConstraintRow.column_name r = Column.Name c.
Proof.
  intros Hsort Hstable Hrows HT Hc.
  assert ((getTables sortSort sortStable
             (readConstraints (Scanned <$> rows)).1 tables).1
          ≡ₚ assembleTable (readConstraints (Scanned <$> rows)).1 <$> tables)
    as Hperm.
  { unfold getTables. simpl. rewrite Hstable, Hsort. by rewrite assemble_loop_fmap. }
  rewrite Hperm in HT. apply list_elem_of_fmap in HT as (t & -> & _).
  destruct (assembleTable_spec (readConstraints (Scanned <$> rows)).1 t)
    as (Ho & Hn & _ & Hflag).
  rewrite Ho, Hn, (Hflag c Hc).
  rewrite <- (merged_constraint_row rows _ (Column.Name c) (λ ty, ty = "P" ∨ ty = "U")).
  split.
  - intros (k & Hk & Hty & Hnm).
    apply readConstraints_files_by_key in Hk as [Hk Hkey]; [|done].
    exists k. done.
  - intros (k & Hk & Hkey & Hty & Hnm).
    exists k. split; [|done]. apply readConstraints_files_by_key; done.
Qed.

Lemma unique_flag_iff_constraint_row_witness :
  ∃ r, r ∈ constraintRowsEmp
       ∧ ConstraintRow.owner r +:+ "." +:+ ConstraintRow.table_name r = "SCOTT.EMP"
       ∧ (ConstraintRow.constraint_type r = "P"
          ∨ ConstraintRow.constraint_type r = "U")
       ∧ ConstraintRow.column_name r = "ID".
Proof.
  apply (unique_flag_iff_constraint_row Sample.sortSort Sample.sortStable
           constraintRowsEmp [tableEmp]
           (Table.mk "SCOTT" "EMP" ""
              [ Column.mk "ID" "NUMBER" "" true;
                Column.mk "ENAME" "VARCHAR2(10)" "" true ]
              [ TableConstraint.mk ["DEPTNO"] "SCOTT" "DEPT" "PK_DEPT" ])
           (Column.mk "ID" "NUMBER" "" true)).
  - intros less l. apply insertionSort_Permutation.
  - intros less l. apply insertionSort_Permutation.
  - repeat constructor; discriminate.
  - left.
  - left.
  - reflexivity.
Defined.

(** ** The nodes *)

(** X16: A node of the box diagram is its head followed by one row per
    column, in column order, and the closing line; the row of a column is
    highlighted exactly when the column is flagged unique. *)
Theorem nodeTextDOT_one_row_per_column
    (Quote : string → string) (WrapString : string → nat → string) (t : Table.t) :
  nodeTextDOT Quote WrapString t
  = nodeHeadDOT WrapString t
    +:+ joinAll ((λ col, columnRowDOT Quote WrapString
                           (if Column.Unique col
                            then " BGCOLOR=" +:+ DQ +:+ "YELLOW" +:+ DQ +:+ " "
                            else "") col)
                   <$> Table.Columns t)
    +:+ "</TABLE>>];" +:+ NL.
Proof.
  apply (writes_textOf _ tt). unfold PrintNodeDOT.
  eapply writes_bind; [apply writes_WriteString|].
  eapply writes_bind; [|apply writes_WriteString].
  apply (writes_forRange (Table.Columns t)
           (λ col, WriteString (columnRowDOT Quote WrapString
                                  (if Column.Unique col
                                   then " BGCOLOR=" +:+ DQ +:+ "YELLOW" +:+ DQ +:+ " "
                                   else "") col))).
  intros col. apply writes_WriteString.
Qed.

(** X17: [PrintGML] writes one node record per table, in table order and
    without clusters, then the edges. *)
Theorem PrintGML_one_node_per_table
    (Quote : string → string) (WrapString : string → nat → string)
    (w : ioWriter.t) (tables : list Table.t) :
  PrintGML Quote WrapString w tables
  = Done (Flush w ("graph [" +:+ NL
                   +:+ joinAll (nodeTextGML WrapString <$> tables)
                   +:+ edgesText (edgeGML Quote) tables
                   +:+ "]" +:+ NL)).
Proof.
  rewrite PrintGML_document. unfold documentGML.
  assert (nodesTextGML WrapString tables
          = joinAll (nodeTextGML WrapString <$> tables)) as ->; [|done].
  apply (writes_textOf _ tt).
  apply (writes_forRange tables (PrintNodeGML WrapString) (nodeTextGML WrapString)).
  intros t. apply writes_WriteString.
Qed.
